(** * Sheet proxy: the CSV tokenizer and the authorizing edge function

    A shallow embedding of [parseCSV] and of the [serve] handler of the
    [google-sheets] edge function, together with the part of the client's
    [handleSave] that builds the update request, and the properties of
    the specification that concern them. *)

From Stdlib Require Import Ascii String.
From Stdlib Require Import List Bool Arith NArith ZArith QArith Lia.
Import ListNotations.

Set Warnings "-register-all".
Close Scope Q_scope.
Open Scope nat_scope.

(* ================================================================== *)
(** * JavaScript strings and values *)
(* ================================================================== *)

Module JS.

(** A JavaScript string is a sequence of UTF-16 code units; [line[i]],
    [split] and [trim] all work on code units. *)
Definition code_unit := N.
Definition jsstring := list code_unit.

(** The code units of an ASCII literal of the source. *)
Definition js (s : string) : jsstring :=
  map N_of_ascii (list_ascii_of_string s).

Definition LF : code_unit := 10%N.
Definition CR : code_unit := 13%N.
Definition DQUOTE : code_unit := 34%N.
Definition COMMA : code_unit := 44%N.

Fixpoint str_eqb (a b : jsstring) : bool :=
  match a, b with
  | [], [] => true
  | x :: a', y :: b' => (x =? y)%N && str_eqb a' b'
  | _, _ => false
  end.

(** ECMAScript [WhiteSpace] and [LineTerminator] code points, the ones
    [String.prototype.trim] removes. *)
Definition is_whitespace (c : code_unit) : bool :=
  ((c =? 9) || (c =? 10) || (c =? 11) || (c =? 12) || (c =? 13)
   || (c =? 32) || (c =? 160) || (c =? 5760)
   || ((8192 <=? c) && (c <=? 8202))
   || (c =? 8232) || (c =? 8233) || (c =? 8239) || (c =? 8287)
   || (c =? 12288) || (c =? 65279))%N.

Fixpoint trimStart (s : jsstring) : jsstring :=
  match s with
  | [] => []
  | c :: s' => if is_whitespace c then trimStart s' else s
  end.

Definition trimEnd (s : jsstring) : jsstring := rev (trimStart (rev s)).

(** [s.trim()] *)
Definition trim (s : jsstring) : jsstring := trimEnd (trimStart s).

(** [s.split('\n')]: the pieces between line feeds; the empty string
    gives one empty piece. *)
Fixpoint split_lf (s : jsstring) : list jsstring :=
  match s with
  | [] => [[]]
  | c :: s' =>
      if (c =? LF)%N then [] :: split_lf s'
      else match split_lf s' with
           | l :: ls => (c :: l) :: ls
           | [] => [[c]]
           end
  end.

(** [ToBoolean] of a string: the empty string is falsy. *)
Definition str_truthy (s : jsstring) : bool :=
  match s with [] => false | _ :: _ => true end.

Fixpoint is_prefix (p s : jsstring) : bool :=
  match p, s with
  | [], _ => true
  | a :: p', b :: s' => (a =? b)%N && is_prefix p' s'
  | _ :: _, [] => false
  end.

(** [s.replace(pat, '')] with a string pattern: the first occurrence of
    [pat] is removed, the rest of [s] is kept. *)
Fixpoint replace_first_with_empty (pat s : jsstring) : jsstring :=
  if is_prefix pat s then skipn (length pat) s
  else match s with
       | [] => []
       | c :: s' => c :: replace_first_with_empty pat s'
       end.

(** A JavaScript number.  Every double is a rational, a signed zero, an
    infinity or NaN; the code below only tests numbers for truthiness
    and adds 2 to an array index. *)
Inductive number : Type :=
| Finite (q : Q)
| NegZero
| NaN
| Infinity (negative : bool).

Definition num_truthy (n : number) : bool :=
  match n with
  | Finite q => negb (Qnum q =? 0)%Z
  | NegZero | NaN => false
  | Infinity _ => true
  end.

Definition num_of_Z (z : Z) : number := Finite (inject_Z z).

(** The values that reach the handler: what [JSON.parse] produces, and
    [undefined] for a property that is not there.  An object is the list
    of its own properties in the order in which they are enumerated
    (for the keys written in the source, the order of writing). *)
Inductive value : Type :=
| Undefined
| Null
| Bool (b : bool)
| Num (n : number)
| Str (s : jsstring)
| Arr (items : list value)
| Obj (props : list (jsstring * value)).

(** [ToBoolean] *)
Definition truthy (v : value) : bool :=
  match v with
  | Undefined | Null => false
  | Bool b => b
  | Num n => num_truthy n
  | Str s => str_truthy s
  | Arr _ | Obj _ => true
  end.

(** [v === 'literal'] *)
Definition strict_eq_str (v : value) (s : jsstring) : bool :=
  match v with
  | Str t => str_eqb t s
  | _ => false
  end.

Fixpoint lookup (k : jsstring) (props : list (jsstring * value)) : option value :=
  match props with
  | [] => None
  | (k', v) :: ps => if str_eqb k' k then Some v else lookup k ps
  end.

(** [a || b] *)
Definition or_else (a b : value) : value := if truthy a then a else b.

(** [JSON.stringify(v)] for a [v] that is not [undefined] itself, given
    by the JSON value that the text denotes: a property whose value is
    [undefined] is left out, [undefined] in an array and a number that
    is not finite are written [null], and minus zero is written [0]. *)
Fixpoint to_json (v : value) : value :=
  match v with
  | Undefined | Null => Null
  | Bool b => Bool b
  | Num (Finite q) => Num (Finite q)
  | Num NegZero => Num (Finite 0)
  | Num NaN | Num (Infinity _) => Null
  | Str s => Str s
  | Arr items => Arr (map to_json items)
  | Obj props =>
      Obj ((fix own (ps : list (jsstring * value)) : list (jsstring * value) :=
              match ps with
              | [] => []
              | (_, Undefined) :: rest => own rest
              | (k, x) :: rest => (k, to_json x) :: own rest
              end) props)
  end.


End JS.

(* ================================================================== *)
(** * The CSV tokenizer *)
(* ================================================================== *)

Module CSV.
Import JS.

(** The variables of the inner loop of [parseCSV]. *)
Record loop_state : Type := mkState {
  values : list jsstring;
  current : jsstring;
  inQuotes : bool
}.

Definition init : loop_state := mkState [] [] false.

(** [inQuotes = !inQuotes] *)
Definition toggle (st : loop_state) : loop_state :=
  mkState (values st) (current st) (negb (inQuotes st)).

(** [current += c] *)
Definition append (st : loop_state) (c : code_unit) : loop_state :=
  mkState (values st) (current st ++ [c]) (inQuotes st).

(** [values.push(current); current = ''] *)
Definition push (st : loop_state) : loop_state :=
  mkState (values st ++ [current st]) [] (inQuotes st).

(** ** The loop as it is written: an index into the line *)

(** One execution of the loop body at index [i], which is below
    [line.length]; the result is the state and the index after the
    body, before the [i++] of the loop header. *)
Definition loop_body (line : jsstring) (i : nat) (st : loop_state)
  : nat * loop_state :=
  match nth_error line i with
  | None => (i, st)
  | Some char =>
      if (char =? DQUOTE)%N then
        if inQuotes st &&
           match nth_error line (i + 1) with
           | Some next => (next =? DQUOTE)%N
           | None => false
           end
        then (i + 1, append st DQUOTE)
        else (i, toggle st)
      else if (char =? COMMA)%N && negb (inQuotes st) then (i, push st)
      else (i, append st char)
  end.

(** One iteration: the body, then the [i++] of the loop header. *)
Definition iteration (line : jsstring) (i : nat) (st : loop_state)
  : nat * loop_state :=
  let '(i', st') := loop_body line i st in (i' + 1, st').

(** [for (let i = ...; i < line.length; i++) body], with a bound on the
    number of iterations; [None] when the bound is reached first. *)
Fixpoint for_loop (fuel : nat) (line : jsstring) (i : nat) (st : loop_state)
  : option loop_state :=
  if length line <=? i then Some st
  else match fuel with
       | O => None
       | S fuel' =>
           let '(i', st') := iteration line i st in
           for_loop fuel' line i' st'
       end.

(** The body of the outer loop for one line: skip it when [line.trim()]
    is empty, else scan it and push the last field and the row. *)
Definition line_rows_fuel (fuel : nat) (line : jsstring)
  : option (list (list jsstring)) :=
  if str_truthy (trim line) then
    match for_loop fuel line 0 init with
    | Some st => Some [values st ++ [current st]]
    | None => None
    end
  else Some [].

Fixpoint lines_rows_fuel (fuel : nat) (lines : list jsstring)
  (result : list (list jsstring)) : option (list (list jsstring)) :=
  match lines with
  | [] => Some result
  | line :: rest =>
      match line_rows_fuel fuel line with
      | Some rows => lines_rows_fuel fuel rest (result ++ rows)
      | None => None
      end
  end.

(** [parseCSV] with every inner loop bounded by [fuel] iterations. *)
Definition parseCSV_fuel (fuel : nat) (csvText : jsstring)
  : option (list (list jsstring)) :=
  lines_rows_fuel fuel (split_lf csvText) [].

(** ** The loop by recursion on the rest of the line *)

(** The same loop, reading the line from the front: the escape case
    consumes the quote and the one after it. *)
Fixpoint scan (line : jsstring) (st : loop_state) : loop_state :=
  match line with
  | [] => st
  | char :: rest =>
      if (char =? DQUOTE)%N then
        match inQuotes st, rest with
        | true, next :: rest' =>
            if (next =? DQUOTE)%N then scan rest' (append st DQUOTE)
            else scan rest (toggle st)
        | _, _ => scan rest (toggle st)
        end
      else if (char =? COMMA)%N && negb (inQuotes st) then scan rest (push st)
      else scan rest (append st char)
  end.

(** The row of a line that is not skipped. *)
Definition parseLine (line : jsstring) : list jsstring :=
  let st := scan line init in values st ++ [current st].

(** Whether the line ends with its quote-mode still on. *)
Definition ends_in_quotes (line : jsstring) : bool :=
  inQuotes (scan line init).

Fixpoint parseLines (lines : list jsstring) (result : list (list jsstring))
  : list (list jsstring) :=
  match lines with
  | [] => result
  | line :: rest =>
      if str_truthy (trim line)
      then parseLines rest (result ++ [parseLine line])
      else parseLines rest result
  end.

Definition parseCSV (csvText : jsstring) : list (list jsstring) :=
  parseLines (split_lf csvText) [].

(** A line of white space only. *)
Definition is_blank (line : jsstring) : bool := forallb is_whitespace line.

End CSV.

(* ================================================================== *)
(** * The edge function *)
(* ================================================================== *)

Module Proxy.
Import JS.

(** What a [catch] clause receives: an [Error] with its message, or
    some other thrown value. *)
Inductive thrown : Type :=
| ErrorObject (message : jsstring)
| OtherThrown.

Definition result (A : Type) : Type := (thrown + A)%type.

(** The second argument of [fetch]; [init_body] is the JSON text of
    the body, given by the value it denotes. *)
Record FetchInit : Type := mkInit {
  init_method : jsstring;
  init_headers : list (jsstring * jsstring);
  init_body : value
}.

(** The part of a fetch response the handler reads: [ok], [text()] and
    [json()]. *)
Record FetchResponse : Type := mkFetchResponse {
  ok : bool;
  text : result jsstring;
  json : result value
}.

Record User : Type := mkUser { email : option jsstring }.

(** [{ data: { user }, error }] as returned by [auth.getUser]. *)
Record UserResponse : Type := mkUserResponse {
  user : option User;
  authError : option jsstring
}.

Record SupabaseClient : Type := mkClient {
  getUser : jsstring -> result UserResponse
}.

(** Everything outside the handler, for one invocation: the
    environment variables, the identity provider, the network and the
    engine's message for the [TypeError] of taking property [k] from
    [null]: by destructuring for [action], by a read for [success]. *)
Record World : Type := mkWorld {
  env_get : jsstring -> option jsstring;
  createClient : option jsstring -> option jsstring -> result SupabaseClient;
  fetch : jsstring -> option FetchInit -> result FetchResponse;
  type_error_message : jsstring -> jsstring
}.

(** An incoming request: its method, [headers.get('Authorization')]
    ([None] for [null]) and what [req.json()] gives. *)
Record Request : Type := mkRequest {
  method : jsstring;
  authorization : option jsstring;
  req_json : result value
}.

(** [body] is [None] for a [null] body and [Some j] for a JSON text,
    given by the value [j] it denotes. *)
Record Response : Type := mkResponse {
  body : option value;
  status : nat;
  headers : list (jsstring * jsstring)
}.

(** The calls the handler makes to the outside, in order ([console]
    output apart). *)
Inductive event : Type :=
| CreateClient (url key : option jsstring)
| GetUser (token : jsstring)
| ReadRequestJson
| Fetch (url : jsstring) (init : option FetchInit)
| ReadText
| ReadJson.

(** ** A monad for the handler: a trace of calls, and exceptions *)

Definition M (A : Type) : Type := list event -> result A * list event.

Definition ret {A} (a : A) : M A := fun tr => (inr a, tr).

Definition bind {A B} (m : M A) (k : A -> M B) : M B :=
  fun tr =>
    match m tr with
    | (inr a, tr') => k a tr'
    | (inl e, tr') => (inl e, tr')
    end.

Definition throw {A} (e : thrown) : M A := fun tr => (inl e, tr).

(** An outside call: it is recorded, and its outcome is the world's. *)
Definition call {A} (ev : event) (r : result A) : M A :=
  fun tr => (r, tr ++ [ev]).

Definition try_catch {A} (m : M A) (handler : thrown -> M A) : M A :=
  fun tr =>
    match m tr with
    | (inl e, tr') => handler e tr'
    | (inr a, tr') => (inr a, tr')
    end.

Notation "x <- m ;; k" := (bind m (fun x => k))
  (at level 61, m at next level, right associativity).

(** Run a handler from the empty trace. *)
Definition run {A} (m : M A) : result A * list event := m [].

(** ** Values the handler builds *)

(** [v.k], or [const { k } = v], for a property name that no prototype
    defines: a [TypeError] on [null] and [undefined], [undefined] when
    the property is not there. *)
Definition get_prop (w : World) (v : value) (k : jsstring) : M value :=
  match v with
  | Undefined | Null => throw (ErrorObject (type_error_message w k))
  | Obj props =>
      ret (match lookup k props with Some x => x | None => Undefined end)
  | _ => ret Undefined
  end.

Definition corsHeaders : list (jsstring * jsstring) :=
  [ (js "Access-Control-Allow-Origin", js "*");
    (js "Access-Control-Allow-Headers",
     js "authorization, x-client-info, apikey, content-type") ].

Definition SHEET_ID : jsstring :=
  js "1fP3CQXENr7j-mAFfDffBNi8ZZ5hSNX_Rw_C61L1W9Cs".

Definition APPS_SCRIPT_URL (w : World) : option jsstring :=
  env_get w (js "GOOGLE_APPS_SCRIPT_URL").

Definition csvUrl : jsstring :=
  js "https://docs.google.com/spreadsheets/d/" ++ SHEET_ID
     ++ js "/export?format=csv".

(** [new Response(JSON.stringify(v), { status, headers: { ...corsHeaders,
    'Content-Type': 'application/json' } })]; the status is 200 when
    the source gives none. *)
Definition json_response (v : value) (st : nat) : Response :=
  mkResponse (Some (to_json v)) st
    (corsHeaders ++ [(js "Content-Type", js "application/json")]).

Definition error_value (msg : value) : value := Obj [(js "error", msg)].

Definition error_response (msg : string) (st : nat) : Response :=
  json_response (error_value (Str (js msg))) st.

Definition rows_value (rows : list (list jsstring)) : value :=
  Arr (map (fun r => Arr (map Str r)) rows).

Definition email_value (u : User) : value :=
  match email u with Some e => Str e | None => Undefined end.

(** The object written for the webhook. *)
Definition update_message (row data userEmail : value) : value :=
  Obj [ (js "action", Str (js "update"));
        (js "row", row);
        (js "data", data);
        (js "userEmail", userEmail) ].

(** [{ method: 'POST', headers: { 'Content-Type': 'application/json' },
    body: JSON.stringify({ action: 'update', row, data, userEmail }) }] *)
Definition webhook_init (row data userEmail : value) : FetchInit :=
  mkInit (js "POST") [(js "Content-Type", js "application/json")]
         (to_json (update_message row data userEmail)).

(** ** The handler *)

(** The [read] branch. *)
Definition handle_read (w : World) (userEmail : value) : M Response :=
  response <- call (Fetch csvUrl None) (fetch w csvUrl None) ;;
  if negb (ok response) then
    throw (ErrorObject (js "Failed to fetch spreadsheet data"))
  else
    csvText <- call ReadText (text response) ;;
    let rows := CSV.parseCSV csvText in
    ret (json_response
           (Obj [(js "data", rows_value rows); (js "userEmail", userEmail)])
           200).

(** The [update] branch. *)
Definition handle_update (w : World) (row data userEmail : value)
  : M Response :=
  if negb (truthy row) || negb (truthy data) then
    ret (error_response "Missing row or data" 400)
  else
    match APPS_SCRIPT_URL w with
    | None => ret (error_response "Apps Script URL not configured" 500)
    | Some url =>
        if negb (str_truthy url) then
          ret (error_response "Apps Script URL not configured" 500)
        else
          let init := webhook_init row data userEmail in
          scriptResponse <- call (Fetch url (Some init))
                                 (fetch w url (Some init)) ;;
          result <- call ReadJson (json scriptResponse) ;;
          success <- get_prop w result (js "success") ;;
          if negb (truthy success) then
            err <- get_prop w result (js "error") ;;
            ret (json_response
                   (error_value (or_else err (Str (js "Update failed"))))
                   400)
          else
            ret (json_response (Obj [(js "success", Bool true)]) 200)
    end.

(** The dispatch on [action], once the caller is known. *)
Definition dispatch (w : World) (userEmail body : value) : M Response :=
  action <- get_prop w body (js "action") ;;
  row <- get_prop w body (js "row") ;;
  data <- get_prop w body (js "data") ;;
  if strict_eq_str action (js "read") then handle_read w userEmail
  else if strict_eq_str action (js "update") then
    handle_update w row data userEmail
  else ret (error_response "Invalid action" 400).

(** The body of the [try] block once the Authorization header is known
    to be a non-empty string. *)
Definition handle_authorized (w : World) (req : Request)
  (authHeader : jsstring) : M Response :=
  let supabaseUrl := env_get w (js "SUPABASE_URL") in
  let supabaseKey := env_get w (js "SUPABASE_SERVICE_ROLE_KEY") in
  supabase <- call (CreateClient supabaseUrl supabaseKey)
                   (createClient w supabaseUrl supabaseKey) ;;
  let token := replace_first_with_empty (js "Bearer ") authHeader in
  r <- call (GetUser token) (getUser supabase token) ;;
  match authError r, user r with
  | None, Some u =>
      body <- call ReadRequestJson (req_json req) ;;
      dispatch w (email_value u) body
  | _, _ => ret (error_response "Unauthorized" 401)
  end.

Definition catch_handler (error : thrown) : M Response :=
  let errorMessage :=
    match error with
    | ErrorObject message => message
    | OtherThrown => js "Unknown error"
    end in
  ret (json_response (error_value (Str errorMessage)) 500).

Definition serve (w : World) (req : Request) : M Response :=
  if str_eqb (method req) (js "OPTIONS") then
    ret (mkResponse None 200 corsHeaders)
  else
    try_catch
      (match authorization req with
       | Some authHeader =>
           if str_truthy authHeader then handle_authorized w req authHeader
           else ret (error_response "No authorization header" 401)
       | None => ret (error_response "No authorization header" 401)
       end)
      catch_handler.

(** ** Vocabulary of the specification *)

(** The request is not a preflight, carries a non-empty Authorization
    header, the identity provider accepts its token as user [u], and
    its JSON body is [body]. *)
Definition authenticated (w : World) (req : Request) (u : User)
  (body : value) : Prop :=
  str_eqb (method req) (js "OPTIONS") = false /\
  exists authHeader supabase,
    authorization req = Some authHeader /\
    str_truthy authHeader = true /\
    createClient w (env_get w (js "SUPABASE_URL"))
                   (env_get w (js "SUPABASE_SERVICE_ROLE_KEY"))
      = inr supabase /\
    getUser supabase (replace_first_with_empty (js "Bearer ") authHeader)
      = inr (mkUserResponse (Some u) None) /\
    req_json req = inr body.

(** The events up to the dispatch on [action], for such a request. *)
Definition auth_trace (w : World) (req : Request) : list event :=
  match authorization req with
  | Some authHeader =>
      [ CreateClient (env_get w (js "SUPABASE_URL"))
                     (env_get w (js "SUPABASE_SERVICE_ROLE_KEY"));
        GetUser (replace_first_with_empty (js "Bearer ") authHeader);
        ReadRequestJson ]
  | None => []
  end.

(** The fields of a request body as the handler destructures it. *)
Definition field (k : string) (body : value) : value :=
  match body with
  | Obj props =>
      match lookup (js k) props with Some x => x | None => Undefined end
  | _ => Undefined
  end.


Definition webhook_configured (w : World) (url : jsstring) : Prop :=
  APPS_SCRIPT_URL w = Some url /\ str_truthy url = true.

End Proxy.

(* ================================================================== *)
(** * The client's save *)
(* ================================================================== *)

Module Client.
Import JS.

Record SheetData : Type := mkSheet {
  headers : list jsstring;
  rows : list (list jsstring)
}.

(** What [fetchData] stores for the rows of a read: the first row as
    headers and the rest as data rows, nothing when there is no row. *)
Definition fetchData_sheet (data : list (list jsstring)) : option SheetData :=
  match data with
  | [] => None
  | first :: others => Some (mkSheet first others)
  end.

(** A [Record<string, string>] as a value. *)
Definition record_value (r : list (jsstring * jsstring)) : value :=
  Obj (map (fun kv => (fst kv, Str (snd kv))) r).

(** [editingRow + 2] for an index of [data.rows]: an integer below
    2^32, for which the addition of doubles is exact. *)
Definition row_number (editingRow : nat) : value :=
  Num (num_of_Z (Z.of_nat editingRow + 2)).

(** The body [handleSave] passes to [functions.invoke]; [None] when it
    returns at once because nothing is being edited or there is no
    data. *)
Definition handleSave_body (editingRow : option nat)
  (data : option SheetData) (editData : list (jsstring * jsstring))
  : option value :=
  match editingRow, data with
  | Some i, Some _ =>
      Some (Obj [ (js "action", Str (js "update"));
                  (js "row", row_number i);
                  (js "data", record_value editData) ])
  | _, _ => None
  end.

End Client.

(* ================================================================== *)
(** * Vocabulary of the specification for CSV text *)
(* ================================================================== *)

Module Sheet.
Import JS CSV.

(** [sep]-separated concatenation, as [lines.join(sep)]. *)
Fixpoint join (sep : jsstring) (lines : list jsstring) : jsstring :=
  match lines with
  | [] => []
  | [l] => l
  | l :: rest => l ++ sep ++ join sep rest
  end.

Definition lf_free (l : jsstring) : bool :=
  forallb (fun c => negb (c =? LF)%N) l.










(** A row with one more code unit at the end of its last field. *)
Fixpoint append_to_last (row : list jsstring) (c : code_unit)
  : list jsstring :=
  match row with
  | [] => []
  | [f] => [f ++ [c]]
  | f :: fs => f :: append_to_last fs c
  end.

(** The rows of a text whose lines are separated by CR LF: every line
    but the last keeps its carriage return. *)
Fixpoint crlf_rows (lines : list jsstring) : list (list jsstring) :=
  match lines with
  | [] => []
  | [l] => if is_blank l then [] else [parseLine l]
  | l :: rest =>
      (if is_blank l then [] else [append_to_last (parseLine l) CR])
      ++ crlf_rows rest
  end.

End Sheet.

(* ================================================================== *)
(** * Concrete requests and worlds *)
(* ================================================================== *)

Module Examples.
Import JS Proxy.

Definition ann : User := mkUser (Some (js "ann@example.com")).

Definition client : SupabaseClient :=
  mkClient (fun _ => inr (mkUserResponse (Some ann) None)).

Definition script_url : jsstring := js "https://script.example/exec".

(** A world whose identity provider accepts every token as [ann],
    whose sheet export is [csv] and whose webhook answers [answer]. *)
Definition world (csv : jsstring) (answer : value) : World :=
  mkWorld
    (fun k => if str_eqb k (js "GOOGLE_APPS_SCRIPT_URL")
              then Some script_url else Some (js "configured"))
    (fun _ _ => inr client)
    (fun _ init =>
       match init with
       | None => inr (mkFetchResponse true (inr csv) (inl OtherThrown))
       | Some _ => inr (mkFetchResponse true (inl OtherThrown) (inr answer))
       end)
    (fun k =>
       if str_eqb k (js "action")
       then js "Cannot destructure property 'action' of '(intermediate value)' as it is null."
       else js "Cannot read properties of null (reading '" ++ k ++ js "')").

Definition post (body : value) : Request :=
  mkRequest (js "POST") (Some (js "Bearer token")) (inr body).

Definition update_body (row data : value) : value :=
  Obj [ (js "action", Str (js "update")); (js "row", row); (js "data", data) ].



Definition row_two : value :=
  update_body (Num (num_of_Z 2)) (Obj [(js "name", Str (js "Ann"))]).

Definition answer_ok : value := Obj [(js "success", Bool true)].



(** A webhook refusal that happens to use the words of the handler's
    own validation. *)
Definition answer_same_words : value :=
  Obj [ (js "success", Bool false);
        (js "error", Str (js "Missing row or data")) ].

Definition preflight : Request :=
  mkRequest (js "OPTIONS") None (inl OtherThrown).

Definition anonymous : Request :=
  mkRequest (js "POST") None (inr row_two).

End Examples.

(* ================================================================== *)
(** * Two sentences of the specification, as they are written *)
(* ================================================================== *)

Module Stated.
Import JS Proxy.




End Stated.

(* ================================================================== *)
(** * Vocabulary for the outcomes of the handler *)
(* ================================================================== *)

Module Outcome.
Import JS Proxy.

(** The request is not a preflight, carries a non-empty Authorization
    header, and the identity provider accepts its token as user [u]. *)
Definition identified (w : World) (req : Request) (u : User) : Prop :=
  str_eqb (method req) (js "OPTIONS") = false /\
  exists authHeader supabase,
    authorization req = Some authHeader /\
    str_truthy authHeader = true /\
    createClient w (env_get w (js "SUPABASE_URL"))
                   (env_get w (js "SUPABASE_SERVICE_ROLE_KEY"))
      = inr supabase /\
    getUser supabase (replace_first_with_empty (js "Bearer ") authHeader)
      = inr (mkUserResponse (Some u) None).

(** The two calls made to identify the caller. *)
Definition identity_trace (w : World) (req : Request) : list event :=
  match authorization req with
  | Some authHeader =>
      [ CreateClient (env_get w (js "SUPABASE_URL"))
                     (env_get w (js "SUPABASE_SERVICE_ROLE_KEY"));
        GetUser (replace_first_with_empty (js "Bearer ") authHeader) ]
  | None => []
  end.

Definition is_fetch (ev : event) : bool :=
  match ev with Fetch _ _ => true | _ => false end.

(** A response as the handler builds them: one of its four statuses,
    with the cross-origin headers. *)
Definition well_formed (r : Response) : Prop :=
  In (status r) [200; 400; 401; 500] /\ incl corsHeaders (headers r).

(** The body of the 500 response for a thrown value. *)
Definition internal_error (e : thrown) : Response :=
  json_response
    (error_value (Str (match e with
                       | ErrorObject message => message
                       | OtherThrown => js "Unknown error"
                       end))) 500.

(** What a branch may add to the trace: nothing, or one fetch followed
    at most by the reading of its answer. *)
Definition one_fetch (extra : list event) : Prop :=
  extra = [] \/
  exists url init,
    extra = [Fetch url init]
    \/ extra = [Fetch url init; ReadText]
    \/ extra = [Fetch url init; ReadJson].

Definition branch_ok (tr : list event) (r : result Response * list event)
  : Prop :=
  (forall resp, fst r = inr resp -> well_formed resp) /\
  exists extra, snd r = tr ++ extra /\ one_fetch extra.

(** Whether [pat] occurs somewhere in [s]: [s.includes(pat)]. *)
Fixpoint includes (s pat : jsstring) : bool :=
  is_prefix pat s
  || match s with
     | [] => false
     | _ :: s' => includes s' pat
     end.

End Outcome.

(* ================================================================== *)
(** * More worlds and requests *)
(* ================================================================== *)

Module Cases.
Import JS Proxy Examples.

(** A world given by what the identity provider answers, the
    configured webhook URL, and the answers of the sheet export and of
    the webhook. *)
Definition world_of (answer : result UserResponse) (url : option jsstring)
  (sheet hook : result FetchResponse) : World :=
  mkWorld
    (fun k => if str_eqb k (js "GOOGLE_APPS_SCRIPT_URL")
              then url else Some (js "configured"))
    (fun _ _ => inr (mkClient (fun _ => answer)))
    (fun _ init => match init with None => sheet | Some _ => hook end)
    (fun k =>
       if str_eqb k (js "action")
       then js "Cannot destructure property 'action' of '(intermediate value)' as it is null."
       else js "Cannot read properties of null (reading '" ++ k ++ js "')").

Definition accepts_ann : result UserResponse :=
  inr (mkUserResponse (Some ann) None).


Definition sheet_down : result FetchResponse :=
  inr (mkFetchResponse false (inr (js "Sorry")) (inl OtherThrown)).

Definition hook_html : result FetchResponse :=
  inr (mkFetchResponse true (inr (js "<html>"))
         (inl (ErrorObject (js "Unexpected token '<'")))).








End Cases.

(* ================================================================== *)
(** * Measures on lines and on the state of the loop *)
(* ================================================================== *)

Module Fields.
Import JS CSV.

Definition quote_free (l : jsstring) : bool :=
  forallb (fun c => negb (c =? DQUOTE)%N) l.

(** The number of commas of a string. *)
Definition commas (l : jsstring) : nat :=
  length (filter (fun c => (c =? COMMA)%N) l).

(** The number of line feeds of a text. *)
Definition line_feeds (s : jsstring) : nat :=
  length (filter (fun c => (c =? LF)%N) s).

(** The code units held by a state of the loop, in order. *)
Definition chars (st : loop_state) : jsstring :=
  concat (values st) ++ current st.

(** What a state of the loop weighs: its code units, and one for each
    field that has been pushed. *)
Definition weight (st : loop_state) : nat :=
  length (chars st) + length (values st).

(** A state of the loop with fields put before its own. *)
Definition after (first : list jsstring) (st : loop_state) : loop_state :=
  mkState (first ++ values st) (current st) (inQuotes st).

(** No line is blank. *)
Definition no_blank (lines : list jsstring) : bool :=
  forallb (fun l => negb (is_blank l)) lines.

End Fields.

(* ================================================================== *)
(** * The editor: who may edit a row, and what an edit holds *)
(* ================================================================== *)

Module Editor.
Import JS Client.

Section WithLowerCase.

(** [String.prototype.toLowerCase], whose table of case mappings is
    the engine's. *)
Variable toLowerCase : jsstring -> jsstring.

(** [user?.email?.toLowerCase() || '']; [user] is [None] when nobody is
    signed in, and the email of a user may be missing. *)
Definition userEmail (user : option (option jsstring)) : jsstring :=
  match user with
  | Some (Some email) =>
      let lower := toLowerCase email in
      if str_truthy lower then lower else []
  | _ => []
  end.

(** [canEditRow]: [row[0]?.toLowerCase().trim() === userEmail]; a row
    without a first cell gives [undefined], which no string equals. *)
Definition canEditRow (user : option (option jsstring)) (row : list jsstring)
  : bool :=
  match nth_error row 0 with
  | Some cell => str_eqb (trim (toLowerCase cell)) (userEmail user)
  | None => false
  end.

End WithLowerCase.

(** Lower case for the letters A to Z, other code units unchanged. *)
Definition ascii_lower (s : jsstring) : jsstring :=
  map (fun c => if ((65 <=? c) && (c <=? 90))%N then (c + 32)%N else c) s.

Definition PROTO : jsstring := js "__proto__".

(** The own properties of a [Record<string, string>], in the order of
    their creation (JavaScript lists integer-like keys first; no lookup
    depends on that). *)
Definition record : Type := list (jsstring * jsstring).

Fixpoint get (obj : record) (k : jsstring) : option jsstring :=
  match obj with
  | [] => None
  | (k', v) :: rest => if str_eqb k' k then Some v else get rest k
  end.

Fixpoint put (obj : record) (k v : jsstring) : record :=
  match obj with
  | [] => [(k, v)]
  | (k', v') :: rest =>
      if str_eqb k' k then (k', v) :: rest else (k', v') :: put rest k v
  end.

(** [obj[k] = v] for a string [v] on an object created by [{}]: an own
    property is written, except for the key [__proto__], whose setter
    ignores a value that is not an object. *)
Definition assign (obj : record) (k v : jsstring) : record :=
  if str_eqb k PROTO then obj else put obj k v.

(** [row[i] || ''] *)
Definition cell_or_empty (row : list jsstring) (i : nat) : jsstring :=
  match nth_error row i with
  | Some cell => if str_truthy cell then cell else []
  | None => []
  end.

(** [headers.forEach((header, i) => { rowData[header] = row[i] || '' })]
    from index [i] on. *)
Fixpoint forEach_header (headers : list jsstring) (i : nat)
  (row : list jsstring) (rowData : record) : record :=
  match headers with
  | [] => rowData
  | header :: rest =>
      forEach_header rest (S i) row (assign rowData header (cell_or_empty row i))
  end.

(** What [handleEdit] does: nothing without data, a [TypeError] when
    the row is not there and there is a header to read a cell for,
    else the two state updates. *)
Inductive edit_outcome : Type :=
| Nothing
| ThrowsTypeError
| Editing (editData : record) (editingRow : nat).

Definition handleEdit (data : option SheetData) (rowIndex : nat)
  : edit_outcome :=
  match data with
  | None => Nothing
  | Some d =>
      match nth_error (rows d) rowIndex with
      | Some row => Editing (forEach_header (headers d) 0 row []) rowIndex
      | None =>
          match headers d with
          | [] => Editing [] rowIndex
          | _ :: _ => ThrowsTypeError
          end
      end
  end.

End Editor.

(* ================================================================== *)
(** * The sign-in page *)
(* ================================================================== *)

Module AuthPage.
Import JS Outcome.

(** What the form does to the outside, in order. *)
Inductive ui_event : Type :=
| PreventDefault
| ToastError (msg : jsstring)
| ToastSuccess (msg : jsstring)
| SetLoading (loading : bool)
| SignIn (email password : jsstring)
| SignUp (email password : jsstring)
| Navigate (path : jsstring).

Record AuthError : Type := mkAuthError { message : jsstring }.

(** What the page is given: the email check of the schema library,
    and [signIn] and [signUp] of the [useAuth] hook, each answering
    [{ error }] or rejecting. *)
Record Hooks : Type := mkHooks {
  email_ok : jsstring -> bool;
  signIn : jsstring -> jsstring -> Proxy.result (option AuthError);
  signUp : jsstring -> jsstring -> Proxy.result (option AuthError)
}.

Definition UI (A : Type) : Type :=
  list ui_event -> Proxy.result A * list ui_event.

Definition ret {A} (a : A) : UI A := fun tr => (inr a, tr).

Definition bind {A B} (m : UI A) (k : A -> UI B) : UI B :=
  fun tr =>
    match m tr with
    | (inr a, tr') => k a tr'
    | (inl e, tr') => (inl e, tr')
    end.

Definition emit (ev : ui_event) : UI unit := fun tr => (inr tt, tr ++ [ev]).

Definition call {A} (ev : ui_event) (r : Proxy.result A) : UI A :=
  fun tr => (r, tr ++ [ev]).

(** [try { m } finally { final }]: [final] runs on both ways out, and
    what [m] threw is thrown again after it. *)
Definition try_finally {A} (m : UI A) (final : UI unit) : UI A :=
  fun tr =>
    match m tr with
    | (r, tr') =>
        match final tr' with
        | (inr _, tr'') => (r, tr'')
        | (inl e, tr'') => (inl e, tr'')
        end
    end.

Notation "x <- m ;; k" := (bind m (fun x => k))
  (at level 61, m at next level, right associativity).
Notation "m ;;; k" := (bind m (fun _ => k))
  (at level 61, right associativity).

(** The messages of the page, as code units. *)

(** Please enter a valid email address. *)
Definition MSG_EMAIL : jsstring :=
  [35531; 36664; 20837; 26377; 25928; 30340; 38651; 23376; 37109; 20214;
   22320; 22336]%N.

(** The password needs at least 6 characters. *)
Definition MSG_PASSWORD : jsstring :=
  [23494; 30908; 33267; 23569; 38656; 35201; 54; 20491; 23383; 20803]%N.

(** Wrong email or password. *)
Definition MSG_CREDENTIALS : jsstring :=
  [38651; 23376; 37109; 20214; 25110; 23494; 30908; 37679; 35492]%N.

(** Signed in. *)
Definition MSG_SIGNED_IN : jsstring := [30331; 20837; 25104; 21151]%N.

(** This email is already registered. *)
Definition MSG_TAKEN : jsstring :=
  [27492; 38651; 23376; 37109; 20214; 24050; 34987; 35387; 20874]%N.

(** Registered! *)
Definition MSG_SIGNED_UP : jsstring :=
  [35387; 20874; 25104; 21151; 65281]%N.

(** [validateInputs]: the email schema, then the password schema
    ([min(6)] on the length of the string); the first failure is
    shown and ends the check. *)
Definition validateInputs (h : Hooks) (email password : jsstring) : UI bool :=
  if email_ok h email then
    if 6 <=? length password then ret true
    else emit (ToastError MSG_PASSWORD) ;;; ret false
  else emit (ToastError MSG_EMAIL) ;;; ret false.

(** What is shown for the answer of the provider, and where the page
    goes. *)
Definition report (error : option AuthError) (known translated welcome : jsstring)
  : UI unit :=
  match error with
  | Some err =>
      if includes (message err) known then emit (ToastError translated)
      else emit (ToastError (message err))
  | None => emit (ToastSuccess welcome) ;;; emit (Navigate (js "/"))
  end.

(** [handleSubmit] *)
Definition handleSubmit (h : Hooks) (isLogin : bool)
  (email password : jsstring) : UI unit :=
  emit PreventDefault ;;;
  valid <- validateInputs h email password ;;
  if negb valid then ret tt
  else
    emit (SetLoading true) ;;;
    try_finally
      (if isLogin then
         error <- call (SignIn email password) (signIn h email password) ;;
         report error (js "Invalid login credentials") MSG_CREDENTIALS
                MSG_SIGNED_IN
       else
         error <- call (SignUp email password) (signUp h email password) ;;
         report error (js "already registered") MSG_TAKEN MSG_SIGNED_UP)
      (emit (SetLoading false)).

Definition submit (h : Hooks) (isLogin : bool) (email password : jsstring)
  : Proxy.result unit * list ui_event :=
  handleSubmit h isLogin email password [].

Definition is_toast (ev : ui_event) : bool :=
  match ev with ToastError _ | ToastSuccess _ => true | _ => false end.

Definition is_provider_call (ev : ui_event) : bool :=
  match ev with SignIn _ _ | SignUp _ _ => true | _ => false end.

Definition is_loading (ev : ui_event) : bool :=
  match ev with SetLoading _ => true | _ => false end.

(** Hooks for examples: emails with an at sign pass, and the provider
    answers [answer]. *)
Definition hooks_of (answer : Proxy.result (option AuthError)) : Hooks :=
  mkHooks (fun e => existsb (fun c => (c =? 64)%N) e)
          (fun _ _ => answer) (fun _ _ => answer).

End AuthPage.

(* ================================================================== *)
(** * Facts about strings *)
(* ================================================================== *)

Section StringFacts.
Import JS CSV Sheet.

Lemma str_eqb_refl (a : jsstring) : str_eqb a a = true.
Proof.
  induction a as [|x a IH]; simpl; [reflexivity|].
  now rewrite N.eqb_refl, IH.
Qed.

Lemma str_eqb_eq (a b : jsstring) : str_eqb a b = true <-> a = b.
Proof.
  split; [|intros ->; apply str_eqb_refl].
  revert b; induction a as [|x a IH]; intros [|y b]; simpl;
    try discriminate; [reflexivity|].
  intros H. apply andb_true_iff in H as [Hxy Hab].
  apply N.eqb_eq in Hxy. f_equal; [exact Hxy | now apply IH].
Qed.

Lemma trimStart_nil_iff (s : jsstring) :
  trimStart s = [] <-> forallb is_whitespace s = true.
Proof.
  induction s as [|c s IH]; simpl; [tauto|].
  destruct (is_whitespace c); simpl; [exact IH|].
  split; discriminate.
Qed.

Lemma trimStart_head (s s' : jsstring) (c : code_unit) :
  trimStart s = c :: s' -> is_whitespace c = false.
Proof.
  induction s as [|d s IH]; simpl; [discriminate|].
  destruct (is_whitespace d) eqn:Hd; [exact IH|].
  intros [= <- _]. exact Hd.
Qed.

Lemma forallb_rev {A} (p : A -> bool) (l : list A) :
  forallb p (rev l) = forallb p l.
Proof.
  induction l as [|x l IH]; simpl; [reflexivity|].
  rewrite forallb_app, IH. simpl. rewrite andb_true_r. apply andb_comm.
Qed.

(** [line.trim()] is the empty string exactly for a line of white
    space only. *)
Lemma trim_truthy_blank (line : jsstring) :
  str_truthy (trim line) = negb (is_blank line).
Proof.
  unfold trim, trimEnd, is_blank.
  destruct (forallb is_whitespace line) eqn:Hws.
  - apply trimStart_nil_iff in Hws. rewrite Hws. reflexivity.
  - destruct (trimStart line) as [|c s'] eqn:Hts.
    + apply trimStart_nil_iff in Hts. congruence.
    + pose proof (trimStart_head _ _ _ Hts) as Hc.
      destruct (trimStart (rev (c :: s'))) as [|d t] eqn:Hr.
      * apply trimStart_nil_iff in Hr. rewrite forallb_rev in Hr.
        simpl in Hr. rewrite Hc in Hr. discriminate.
      * simpl. destruct (rev t ++ [d]) eqn:E; [|reflexivity].
        now destruct (rev t).
Qed.

Lemma split_lf_nonempty (s : jsstring) : split_lf s <> [].
Proof.
  destruct s as [|c s]; simpl; [discriminate|].
  destruct (c =? LF)%N; [discriminate|].
  destruct (split_lf s); discriminate.
Qed.

(** A line feed separates the lines before it from the lines after. *)
Lemma split_lf_app (a b : jsstring) :
  split_lf (a ++ LF :: b) = split_lf a ++ split_lf b.
Proof.
  induction a as [|c a IH]; simpl; [reflexivity|].
  destruct (c =? LF)%N; [now rewrite IH|].
  rewrite IH. pose proof (split_lf_nonempty a) as Hne.
  destruct (split_lf a); [congruence | reflexivity].
Qed.

Lemma split_lf_lf_free (l : jsstring) :
  lf_free l = true -> split_lf l = [l].
Proof.
  induction l as [|c l IH]; simpl; [reflexivity|].
  intros H. apply andb_true_iff in H as [Hc Hl].
  apply negb_true_iff in Hc. rewrite Hc, (IH Hl). reflexivity.
Qed.

Lemma split_lf_join (lines : list jsstring) :
  lines <> [] -> forallb lf_free lines = true ->
  split_lf (join [LF] lines) = lines.
Proof.
  induction lines as [|l rest IH]; [congruence|]. intros _ H.
  simpl in H. apply andb_true_iff in H as [Hl Hrest].
  destruct rest as [|l' rest'].
  - simpl. now apply split_lf_lf_free.
  - change (join [LF] (l :: l' :: rest'))
      with (l ++ LF :: join [LF] (l' :: rest')).
    rewrite split_lf_app, (split_lf_lf_free _ Hl), IH by (congruence || assumption).
    reflexivity.
Qed.

Lemma split_lf_length (s : jsstring) :
  Forall (fun l => length l <= length s) (split_lf s).
Proof.
  induction s as [|c s IH]; simpl.
  - constructor; [apply Nat.le_refl | constructor].
  - assert (Hw : Forall (fun l => length l <= S (length s)) (split_lf s)).
    { eapply Forall_impl; [|exact IH]. simpl. intros; lia. }
    destruct (c =? LF)%N.
    + constructor; [simpl; lia | exact Hw].
    + destruct (split_lf s) as [|l ls].
      * constructor; [simpl; lia | constructor].
      * inversion IH; subst. inversion Hw; subst.
        constructor; [simpl; lia | assumption].
Qed.

End StringFacts.

(* ================================================================== *)
(** * Facts about the tokenizer *)
(* ================================================================== *)

Section TokenizerFacts.
Import JS CSV Sheet.

(** Induction that follows [scan]: it consumes one code unit, or two. *)
Lemma scan_ind2 (P : jsstring -> Prop) :
  P [] -> (forall a, P [a]) ->
  (forall a b l, P l -> P (b :: l) -> P (a :: b :: l)) ->
  forall l, P l.
Proof.
  intros H0 H1 H2 l.
  enough (H : P l /\ forall a, P (a :: l)) by apply H.
  induction l as [|b l [IHl IHbl]]; split; auto.
Qed.

Lemma scan_cons (char : code_unit) (rest : jsstring) (st : loop_state) :
  scan (char :: rest) st =
  if (char =? DQUOTE)%N then
    match inQuotes st, rest with
    | true, next :: rest' =>
        if (next =? DQUOTE)%N then scan rest' (append st DQUOTE)
        else scan rest (toggle st)
    | _, _ => scan rest (toggle st)
    end
  else if (char =? COMMA)%N && negb (inQuotes st) then scan rest (push st)
  else scan rest (append st char).
Proof. reflexivity. Qed.

(** The outer loop only ever adds rows at the end of [result]. *)
Lemma parseLines_acc (lines : list jsstring) (acc : list (list jsstring)) :
  parseLines lines acc = acc ++ parseLines lines [].
Proof.
  revert acc; induction lines as [|l rest IH]; intros acc; simpl.
  - now rewrite app_nil_r.
  - destruct (str_truthy (trim l)); [|apply IH].
    rewrite (IH (acc ++ _)), (IH [_]). now rewrite <- app_assoc.
Qed.

Lemma parseLines_filter (lines : list jsstring) :
  parseLines lines [] =
  map parseLine (filter (fun l => negb (is_blank l)) lines).
Proof.
  induction lines as [|l rest IH]; simpl; [reflexivity|].
  rewrite trim_truthy_blank. destruct (negb (is_blank l)); [|exact IH].
  rewrite parseLines_acc, IH. reflexivity.
Qed.

Lemma parseCSV_filter (text : jsstring) :
  parseCSV text =
  map parseLine (filter (fun l => negb (is_blank l)) (split_lf text)).
Proof. apply parseLines_filter. Qed.

(** The rows of the text before a line feed do not depend on what
    follows it, nor the other way round. *)
Lemma parseCSV_app (a b : jsstring) :
  parseCSV (a ++ LF :: b) = parseCSV a ++ parseCSV b.
Proof.
  rewrite !parseCSV_filter, split_lf_app, filter_app, map_app.
  reflexivity.
Qed.

Lemma parseCSV_blank (blank : jsstring) :
  is_blank blank = true -> parseCSV blank = [].
Proof.
  intros Hb. rewrite parseCSV_filter.
  assert (H : forall l, In l (split_lf blank) -> is_blank l = true).
  { revert Hb. unfold is_blank.
    induction blank as [|c s IH]; simpl.
    - intros _ l [<-|[]]. reflexivity.
    - intros H. apply andb_true_iff in H as [Hc Hs]. specialize (IH Hs).
      destruct (c =? LF)%N.
      + intros l [<-|Hin]; [reflexivity | now apply IH].
      + pose proof (split_lf_nonempty s) as Hne.
        destruct (split_lf s) as [|l0 ls]; [congruence|].
        intros l [<-|Hin].
        * simpl. rewrite Hc. apply IH. now left.
        * apply IH. now right. }
  induction (split_lf blank) as [|l ls IH]; simpl; [reflexivity|].
  rewrite (H l) by now left. simpl. apply IH.
  intros l' Hin. apply H. now right.
Qed.

(** The loop over the index and the recursion on the rest of the line
    agree, and the loop is over within as many iterations as there
    are code units left. *)
Lemma for_loop_scan (fuel : nat) :
  forall (suf pre : jsstring) (st : loop_state),
    length suf <= fuel ->
    for_loop fuel (pre ++ suf) (length pre) st = Some (scan suf st).
Proof.
  induction fuel as [|fuel IH]; intros suf pre st Hlen.
  - destruct suf; [|simpl in Hlen; lia].
    simpl. now rewrite app_nil_r, Nat.leb_refl.
  - destruct suf as [|c rest].
    { simpl. now rewrite app_nil_r, Nat.leb_refl. }
    simpl in Hlen.
    assert (Hgt : (length (pre ++ c :: rest) <=? length pre) = false).
    { apply Nat.leb_gt. rewrite length_app. simpl. lia. }
    cbn [for_loop]. rewrite Hgt. unfold iteration, loop_body.
    rewrite nth_error_app2, Nat.sub_diag by lia. cbn [nth_error].
    assert (Hnext : nth_error (pre ++ c :: rest) (length pre + 1)
                    = nth_error rest 0).
    { rewrite nth_error_app2 by lia.
      replace (length pre + 1 - length pre) with 1 by lia. reflexivity. }
    rewrite Hnext, scan_cons.
    assert (Hone : forall st', for_loop fuel (pre ++ c :: rest)
                                 (length pre + 1) st' = Some (scan rest st')).
    { intros st'.
      replace (pre ++ c :: rest) with ((pre ++ [c]) ++ rest)
        by (now rewrite <- app_assoc).
      replace (length pre + 1) with (length (pre ++ [c]))
        by (rewrite length_app; reflexivity).
      apply IH. lia. }
    destruct (c =? DQUOTE)%N.
    + destruct (inQuotes st) eqn:Hq, rest as [|next rest']; cbn [nth_error andb];
        try apply Hone.
      destruct (next =? DQUOTE)%N; [|apply Hone].
      replace (pre ++ c :: next :: rest') with ((pre ++ [c; next]) ++ rest')
        by (now rewrite <- app_assoc).
      replace (length pre + 1 + 1) with (length (pre ++ [c; next]))
        by (rewrite length_app; simpl; lia).
      apply IH. simpl in Hlen. lia.
    + destruct ((c =? COMMA)%N && negb (inQuotes st)); apply Hone.
Qed.

Lemma line_rows_fuel_ok (fuel : nat) (line : jsstring) :
  length line <= fuel ->
  line_rows_fuel fuel line =
  Some (if str_truthy (trim line) then [parseLine line] else []).
Proof.
  intros Hlen. unfold line_rows_fuel.
  destruct (str_truthy (trim line)); [|reflexivity].
  pose proof (@for_loop_scan fuel line [] init Hlen) as H.
  simpl in H. now rewrite H.
Qed.

Lemma lines_rows_fuel_ok (fuel : nat) (lines : list jsstring) :
  Forall (fun l => length l <= fuel) lines ->
  forall acc, lines_rows_fuel fuel lines acc = Some (parseLines lines acc).
Proof.
  induction 1 as [|l rest Hl _ IH]; intros acc; simpl; [reflexivity|].
  rewrite (line_rows_fuel_ok _ _ Hl).
  destruct (str_truthy (trim l)); rewrite IH; [reflexivity|].
  now rewrite app_nil_r.
Qed.

(** Closing a quote that the end of the line left open changes
    nothing but the quote-mode. *)
Lemma scan_close_quote (line : jsstring) :
  forall st, inQuotes (scan line st) = true ->
             scan (line ++ [DQUOTE]) st = toggle (scan line st).
Proof.
  induction line as [| a | a b l IHl IHbl] using scan_ind2; intros st Hopen.
  - simpl in Hopen. cbn [app]. rewrite scan_cons. simpl. now rewrite Hopen.
  - change ([a] ++ [DQUOTE]) with (a :: [DQUOTE]).
    rewrite (scan_cons a []) in Hopen |- *. rewrite (scan_cons a [DQUOTE]).
    destruct (a =? DQUOTE)%N.
    + destruct (inQuotes st) eqn:Hq.
      * simpl in Hopen. rewrite Hq in Hopen. discriminate.
      * rewrite scan_cons. simpl. rewrite Hq. reflexivity.
    + destruct ((a =? COMMA)%N && negb (inQuotes st));
        rewrite scan_cons; simpl in *; now rewrite Hopen.
  - change ((a :: b :: l) ++ [DQUOTE]) with (a :: b :: (l ++ [DQUOTE])).
    rewrite (scan_cons a (b :: l)) in Hopen |- *.
    rewrite (scan_cons a (b :: l ++ [DQUOTE])).
    change (b :: (l ++ [DQUOTE])) with ((b :: l) ++ [DQUOTE]).
    destruct (a =? DQUOTE)%N.
    + destruct (inQuotes st).
      * change ((b :: l) ++ [DQUOTE]) with (b :: (l ++ [DQUOTE])).
        destruct (b =? DQUOTE)%N; [now apply IHl|].
        change (b :: (l ++ [DQUOTE])) with ((b :: l) ++ [DQUOTE]).
        now apply IHbl.
      * now apply IHbl.
    + destruct ((a =? COMMA)%N && negb (inQuotes st)); now apply IHbl.
Qed.

(** A code unit that is not a quote, read after the line, is read in
    the state the line ends in. *)
Lemma scan_snoc (c : code_unit) (line : jsstring) :
  (c =? DQUOTE)%N = false ->
  forall st, scan (line ++ [c]) st = scan [c] (scan line st).
Proof.
  intros Hc.
  induction line as [| a | a b l IHl IHbl] using scan_ind2; intros st.
  - reflexivity.
  - change ([a] ++ [c]) with (a :: [c]).
    rewrite (scan_cons a [c]), (scan_cons a []). rewrite Hc.
    destruct (a =? DQUOTE)%N.
    + destruct (inQuotes st); reflexivity.
    + destruct ((a =? COMMA)%N && negb (inQuotes st)); reflexivity.
  - change ((a :: b :: l) ++ [c]) with (a :: b :: (l ++ [c])).
    rewrite (scan_cons a (b :: l ++ [c])), (scan_cons a (b :: l)).
    change (b :: (l ++ [c])) with ((b :: l) ++ [c]).
    destruct (a =? DQUOTE)%N.
    + destruct (inQuotes st).
      * change ((b :: l) ++ [c]) with (b :: (l ++ [c])).
        destruct (b =? DQUOTE)%N; [apply IHl|].
        change (b :: (l ++ [c])) with ((b :: l) ++ [c]). apply IHbl.
      * apply IHbl.
    + destruct ((a =? COMMA)%N && negb (inQuotes st)); apply IHbl.
Qed.

(** ** Well-formed lines *)









(** ** Whole sheets *)




(** ** CR LF line endings *)

Lemma append_to_last_snoc (vs : list jsstring) (x : jsstring) (c : code_unit) :
  append_to_last (vs ++ [x]) c = vs ++ [x ++ [c]].
Proof.
  induction vs as [|v vs IH]; [reflexivity|].
  simpl. rewrite IH. now destruct vs.
Qed.

Lemma parseLine_cr (line : jsstring) :
  parseLine (line ++ [CR]) = append_to_last (parseLine line) CR.
Proof.
  unfold parseLine. rewrite scan_snoc by reflexivity.
  rewrite scan_cons. simpl. now rewrite append_to_last_snoc.
Qed.

Lemma is_blank_cr (line : jsstring) : is_blank (line ++ [CR]) = is_blank line.
Proof.
  unfold is_blank. rewrite forallb_app. simpl. apply andb_true_r.
Qed.

Lemma lf_free_cr (line : jsstring) :
  lf_free line = true -> lf_free (line ++ [CR]) = true.
Proof.
  unfold lf_free. intros H. rewrite forallb_app.
  apply andb_true_iff. split; [exact H | reflexivity].
Qed.

Lemma parseCSV_line (line : jsstring) :
  lf_free line = true ->
  parseCSV line = if is_blank line then [] else [parseLine line].
Proof.
  intros H. rewrite parseCSV_filter, split_lf_lf_free by exact H.
  simpl. now destruct (is_blank line).
Qed.

Lemma parseCSV_crlf (lines : list jsstring) :
  forallb lf_free lines = true ->
  parseCSV (join [CR; LF] lines) = crlf_rows lines.
Proof.
  induction lines as [|l rest IH]; [reflexivity|]. intros H.
  simpl in H. apply andb_true_iff in H as [Hl Hrest].
  destruct rest as [|l' rest'].
  - simpl. now apply parseCSV_line.
  - change (join [CR; LF] (l :: l' :: rest'))
      with (l ++ [CR; LF] ++ join [CR; LF] (l' :: rest')).
    change (l ++ [CR; LF] ++ join [CR; LF] (l' :: rest'))
      with (l ++ [CR] ++ LF :: join [CR; LF] (l' :: rest')).
    rewrite app_assoc, parseCSV_app, (IH Hrest).
    rewrite parseCSV_line by now apply lf_free_cr.
    rewrite is_blank_cr, parseLine_cr. reflexivity.
Qed.

End TokenizerFacts.

(* ================================================================== *)
(** * Facts about the handler *)
(* ================================================================== *)

Section HandlerFacts.
Import JS Proxy.

(** Up to the dispatch, an authenticated request leaves the three
    calls of [auth_trace] and nothing else. *)
Lemma serve_authenticated (w : World) (req : Request) (u : User)
  (body : value) :
  authenticated w req u body ->
  run (serve w req)
  = try_catch (dispatch w (email_value u) body) catch_handler
              (auth_trace w req).
Proof.
  intros (Hm & authHeader & supabase & Hauth & Htruthy & Hclient & Huser & Hjson).
  unfold run, serve, auth_trace. rewrite Hm, Hauth, Htruthy.
  unfold try_catch, handle_authorized, bind, call.
  rewrite Hclient, Huser, Hjson. reflexivity.
Qed.

Lemma field_is_object (k : string) (body : value) (s : jsstring) :
  field k body = Str s -> exists props, body = Obj props.
Proof. destruct body; try discriminate. intros _. now eexists. Qed.


Lemma dispatch_update (w : World) (userEmail body : value)
  (tr : list event) :
  field "action" body = Str (js "update") ->
  dispatch w userEmail body tr
  = handle_update w (field "row" body) (field "data" body) userEmail tr.
Proof.
  intros Ha. destruct (field_is_object _ _ _ Ha) as [props ->].
  unfold dispatch, bind, get_prop, ret. simpl in Ha. simpl. rewrite Ha.
  reflexivity.
Qed.



(** A validated update with a configured webhook: the one outside call
    is the forwarding of [row], [data] and the caller's email. *)
Lemma handle_update_valid (w : World) (row data userEmail : value)
  (url : jsstring) (tr : list event) :
  truthy row = true -> truthy data = true -> webhook_configured w url ->
  handle_update w row data userEmail tr
  = (scriptResponse <- call (Fetch url (Some (webhook_init row data userEmail)))
                            (fetch w url (Some (webhook_init row data userEmail))) ;;
     result <- call ReadJson (json scriptResponse) ;;
     success <- get_prop w result (js "success") ;;
     if negb (truthy success) then
       err <- get_prop w result (js "error") ;;
       ret (json_response
              (error_value (or_else err (Str (js "Update failed")))) 400)
     else ret (json_response (Obj [(js "success", Bool true)]) 200)) tr.
Proof.
  intros Hr Hd [Hurl Hne]. unfold handle_update.
  now rewrite Hr, Hd, Hurl, Hne.
Qed.

Lemma handle_update_forwards (w : World) (row data userEmail : value)
  (url : jsstring) (tr : list event) :
  truthy row = true -> truthy data = true -> webhook_configured w url ->
  exists rest,
    snd (try_catch (handle_update w row data userEmail) catch_handler tr)
    = tr ++ Fetch url (Some (webhook_init row data userEmail)) :: rest
    /\ (rest = [] \/ rest = [ReadJson]).
Proof.
  intros Hr Hd Hcfg. unfold try_catch.
  rewrite (handle_update_valid w row data userEmail url tr Hr Hd Hcfg).
  unfold bind, call.
  destruct (fetch w url _) as [e|resp]; [exists []; simpl; auto|].
  exists [ReadJson]. split; [|now right].
  destruct (json resp) as [e|result]; simpl; [now rewrite <- app_assoc|].
  destruct result; simpl; try (now rewrite <- app_assoc);
    match goal with
    | |- context [truthy ?v] => destruct (truthy v); simpl; now rewrite <- app_assoc
    | _ => idtac
    end.
Qed.


(** Whatever the world does, the only calls with a body that the
    handler makes carry the [row] of the request. *)
Lemma dispatch_fetch_row (w : World) (userEmail body : value)
  (tr : list event) (url : jsstring) (init : FetchInit) :
  In (Fetch url (Some init))
     (snd (try_catch (dispatch w userEmail body) catch_handler tr)) ->
  In (Fetch url (Some init)) tr
  \/ init = webhook_init (field "row" body) (field "data" body) userEmail.
Proof.
  unfold try_catch, dispatch, bind, get_prop, throw, ret.
  destruct body; simpl; auto.
  set (action := match lookup (js "action") props with Some x => x | None => Undefined end).
  set (row := match lookup (js "row") props with Some x => x | None => Undefined end).
  set (data := match lookup (js "data") props with Some x => x | None => Undefined end).
  destruct (strict_eq_str action (js "read")).
  - unfold handle_read, bind, call, throw, ret.
    destruct (fetch w csvUrl None) as [e|resp]; simpl.
    + rewrite in_app_iff. simpl. intuition discriminate.
    + destruct (ok resp); simpl.
      * destruct (text resp); simpl; rewrite !in_app_iff; simpl;
          intuition discriminate.
      * rewrite in_app_iff. simpl. intuition discriminate.
  - destruct (strict_eq_str action (js "update")); simpl; auto.
    unfold handle_update, bind, call, get_prop, throw, ret.
    destruct (negb (truthy row) || negb (truthy data)); simpl; auto.
    destruct (APPS_SCRIPT_URL w) as [u|]; simpl; auto.
    destruct (str_truthy u); simpl; auto.
    assert (Hev : forall rest,
               In (Fetch url (Some init))
                  ((tr ++ [Fetch u (Some (webhook_init row data userEmail))]) ++ rest) ->
               (forall ev, In ev rest -> ev = ReadJson) ->
               In (Fetch url (Some init)) tr
               \/ init = webhook_init row data userEmail).
    { intros rest Hin Hrest. rewrite !in_app_iff in Hin. simpl in Hin.
      destruct Hin as [[Hin | [Heq | []]] | Hin]; auto.
      - right. now inversion Heq.
      - apply Hrest in Hin. discriminate. }
    destruct (fetch w u _) as [e|resp]; simpl.
    + intros Hin. apply (Hev []); [now rewrite app_nil_r | intros ev []].
    + assert (Hone : forall ev, In ev [ReadJson] -> ev = ReadJson)
        by (intros ev [<-|[]]; reflexivity).
      destruct (json resp) as [e|answer]; simpl.
      * intros Hin. now apply (Hev [ReadJson]).
      * destruct answer; simpl; try (intros Hin; now apply (Hev [ReadJson]));
          match goal with
          | |- context [truthy ?v] =>
              destruct (truthy v); simpl; intros Hin; now apply (Hev [ReadJson])
          end.
Qed.

Lemma serve_fetch_row (w : World) (req : Request) (body : value)
  (url : jsstring) (init : FetchInit) :
  req_json req = inr body ->
  In (Fetch url (Some init)) (snd (run (serve w req))) ->
  exists userEmail,
    init = webhook_init (field "row" body) (field "data" body) userEmail.
Proof.
  intros Hjson. unfold run, serve.
  destruct (str_eqb (method req) (js "OPTIONS")); [intros []|].
  destruct (authorization req) as [authHeader|]; [|intros []].
  destruct (str_truthy authHeader); [|intros []].
  unfold handle_authorized.
  set (c := CreateClient _ _).
  set (token := replace_first_with_empty _ _).
  unfold try_catch at 1. unfold bind at 1. unfold call at 1.
  destruct (createClient w _ _) as [e|supabase]; simpl.
  { intros [H|[]]. discriminate. }
  unfold bind at 1. unfold call at 1.
  destruct (getUser supabase token) as [e|r]; simpl.
  { intros [H|[H|[]]]; discriminate. }
  destruct (authError r); simpl.
  { intros [H|[H|[]]]; discriminate. }
  destruct (user r) as [u|]; simpl.
  2:{ intros [H|[H|[]]]; discriminate. }
  unfold bind at 1. unfold call at 1. rewrite Hjson.
  intros Hin.
  pose proof (dispatch_fetch_row w (email_value u) body
                [c; GetUser token; ReadRequestJson] url init) as Hd.
  unfold try_catch in Hd.
  destruct (Hd Hin) as [[H|[H|[H|[]]]] | ->]; try discriminate.
  now eexists.
Qed.

End HandlerFacts.

(* ================================================================== *)
(** * The handler: preflight, authentication and update validation *)
(* ================================================================== *)

Section HandlerClaims.
Import JS Proxy Examples.


(** C4: a preflight request is answered with an empty 200 response
    (no body, the two cross-origin headers) and no outside call at
    all, whatever its headers; any other request without an
    Authorization header is answered 401 with the JSON body
    [{error: "No authorization header"}], again before any outside
    call: no token check, no reading of the body, no dispatch. *)
Theorem C4_preflight_then_authorization (w : World) (req : Request) :
  (method req = js "OPTIONS" ->
   run (serve w req)
   = (inr (mkResponse None 200
      [ (js "Access-Control-Allow-Origin", js "*");
        (js "Access-Control-Allow-Headers",
         js "authorization, x-client-info, apikey, content-type") ]),
      [])) /\
  (method req <> js "OPTIONS" -> authorization req = None ->
   run (serve w req)
   = (inr (mkResponse
             (Some (Obj [(js "error", Str (js "No authorization header"))]))
             401
      [ (js "Access-Control-Allow-Origin", js "*");
        (js "Access-Control-Allow-Headers",
         js "authorization, x-client-info, apikey, content-type");
        (js "Content-Type", js "application/json") ]),
      [])).
Proof.
  split.
  - intros Hm. unfold run, serve. rewrite Hm. reflexivity.
  - intros Hm Hauth. unfold run, serve.
    destruct (str_eqb (method req) (js "OPTIONS")) eqn:E.
    + apply str_eqb_eq in E. contradiction.
    + rewrite Hauth. reflexivity.
Qed.

Lemma C4_witness :
  run (serve (world [] answer_ok) preflight)
  = (inr (mkResponse None 200
      [ (js "Access-Control-Allow-Origin", js "*");
        (js "Access-Control-Allow-Headers",
         js "authorization, x-client-info, apikey, content-type") ]),
     []) /\
  run (serve (world [] answer_ok) anonymous)
  = (inr (mkResponse
            (Some (Obj [(js "error", Str (js "No authorization header"))]))
            401
      [ (js "Access-Control-Allow-Origin", js "*");
        (js "Access-Control-Allow-Headers",
         js "authorization, x-client-info, apikey, content-type");
        (js "Content-Type", js "application/json") ]),
     []).
Proof.
  split.
  - apply (proj1 (C4_preflight_then_authorization (world [] answer_ok) preflight)).
    reflexivity.
  - apply (proj2 (C4_preflight_then_authorization (world [] answer_ok) anonymous)).
    + discriminate.
    + reflexivity.
Defined.


(** The response alone does not tell a rejection at validation from a
    relayed refusal of the webhook: the trace does. *)
Lemma relayed_refusal_same_response :
  truthy (field "row" row_two) = true /\
  truthy (field "data" row_two) = true /\
  fst (run (serve (world [] answer_same_words) (post row_two)))
  = inr (error_response "Missing row or data" 400) /\
  snd (run (serve (world [] answer_same_words) (post row_two)))
  <> auth_trace (world [] answer_same_words) (post row_two).
Proof. repeat split. discriminate. Qed.





End HandlerClaims.

(* ================================================================== *)
(** * What is written on the wire *)
(* ================================================================== *)

Section WireFacts.
Import JS Proxy.






End WireFacts.

(* ================================================================== *)
(** * The handler: forwarding an update *)
(* ================================================================== *)

Section UpdateClaims.
Import JS Proxy Examples Cases.




End UpdateClaims.

Section SaveClaims.
Import JS Proxy Client Examples.

Lemma row_number_truthy (i : nat) : truthy (row_number i) = true.
Proof.
  unfold row_number, num_of_Z. simpl.
  destruct (Z.eqb_spec (Z.of_nat i + 2) 0); [lia | reflexivity].
Qed.

(** C8: when the row at index [i] of the client's data rows is saved,
    the request carries [row = i + 2]; the handler forwards that value
    unchanged, so every call that reaches the webhook has [row = i + 2],
    and for an authenticated caller with a configured webhook there is
    such a call. *)
Theorem C8_saved_row_is_index_plus_two (i : nat) (sheet : SheetData)
  (editData : list (jsstring * jsstring)) (body : value) :
  handleSave_body (Some i) (Some sheet) editData = Some body ->
  field "row" body = Num (num_of_Z (Z.of_nat i + 2)) /\
  (forall (w : World) (req : Request) (url : jsstring) (init : FetchInit),
      req_json req = inr body ->
      In (Fetch url (Some init)) (snd (run (serve w req))) ->
      field "row" (init_body init) = Num (num_of_Z (Z.of_nat i + 2))) /\
  (forall (w : World) (req : Request) (u : User) (url : jsstring),
      authenticated w req u body ->
      webhook_configured w url ->
      exists rest,
        snd (run (serve w req))
        = auth_trace w req
          ++ Fetch url (Some (webhook_init (Num (num_of_Z (Z.of_nat i + 2)))
                                           (record_value editData)
                                           (email_value u))) :: rest).
Proof.
  intros Hbody. injection Hbody as <-. split; [reflexivity|]. split.
  - intros w req url init Hjson Hin.
    destruct (serve_fetch_row w req _ url init Hjson Hin) as [ue ->].
    reflexivity.
  - intros w req u url Hauth Hcfg.
    rewrite (serve_authenticated _ _ _ _ Hauth).
    destruct (handle_update_forwards w (row_number i) (record_value editData)
                (email_value u) url (auth_trace w req)
                (row_number_truthy i) eq_refl Hcfg) as (rest & Htr & _).
    exists rest. unfold try_catch in *.
    rewrite dispatch_update by reflexivity. exact Htr.
Qed.

Lemma C8_witness :
  field "row" (Obj [ (js "action", Str (js "update"));
                     (js "row", row_number 3);
                     (js "data", record_value [(js "name", js "Ann")]) ])
  = Num (num_of_Z 5).
Proof.
  apply (C8_saved_row_is_index_plus_two 3 (mkSheet [] [])
           [(js "name", js "Ann")] _ eq_refl).
Defined.

End SaveClaims.

(* ================================================================== *)
(** * The tokenizer: quotes, blank lines, line ends *)
(* ================================================================== *)

Section TokenizerClaims.
Import JS CSV Sheet.

(** C2: in the loop of [parseCSV], a quote read in quote-mode and
    followed by another quote appends one quote to the current field
    and moves the index past both; any other quote toggles quote-mode;
    a comma in quote-mode is appended to the field and a comma outside
    it ends the field.  The loop computes [scan]; the line made of
    [a], a comma, [b,c] between quotes, a comma and [d] gives the
    fields [a], [b,c], [d], and with [b], two quotes and [c] between
    the quotes the middle field is [b], one quote, [c]. *)
Theorem C2_quotes_and_commas :
  (forall line i st,
      nth_error line i = Some DQUOTE -> inQuotes st = true ->
      nth_error line (i + 1) = Some DQUOTE ->
      iteration line i st = (i + 2, append st DQUOTE)) /\
  (forall line i st,
      nth_error line i = Some DQUOTE ->
      inQuotes st = false \/ nth_error line (i + 1) <> Some DQUOTE ->
      iteration line i st = (i + 1, toggle st)) /\
  (forall line i st,
      nth_error line i = Some COMMA -> inQuotes st = true ->
      iteration line i st = (i + 1, append st COMMA)) /\
  (forall line i st,
      nth_error line i = Some COMMA -> inQuotes st = false ->
      iteration line i st = (i + 1, push st)) /\
  (forall line,
      for_loop (length line) line 0 init = Some (scan line init)) /\
  parseCSV (js "a," ++ [DQUOTE] ++ js "b,c" ++ [DQUOTE] ++ js ",d")
  = [[js "a"; js "b,c"; js "d"]] /\
  parseCSV (js "a," ++ [DQUOTE] ++ js "b" ++ [DQUOTE; DQUOTE] ++ js "c"
              ++ [DQUOTE] ++ js ",d")
  = [[js "a"; js "b" ++ [DQUOTE] ++ js "c"; js "d"]].
Proof.
  repeat split.
  - intros line i st Hc Hq Hn. unfold iteration, loop_body.
    rewrite Hc, Hn, Hq. simpl. f_equal. lia.
  - intros line i st Hc Hor. unfold iteration, loop_body. rewrite Hc.
    simpl (DQUOTE =? DQUOTE)%N. cbv iota.
    destruct Hor as [Hq | Hn].
    + now rewrite Hq.
    + destruct (nth_error line (i + 1)) as [next|] eqn:E.
      * destruct (next =? DQUOTE)%N eqn:En.
        -- apply N.eqb_eq in En. congruence.
        -- now rewrite andb_false_r.
      * now rewrite andb_false_r.
  - intros line i st Hc Hq. unfold iteration, loop_body.
    rewrite Hc, Hq. reflexivity.
  - intros line i st Hc Hq. unfold iteration, loop_body.
    rewrite Hc, Hq. reflexivity.
  - intros line. apply (for_loop_scan (length line) line [] init).
    apply Nat.le_refl.
Qed.

Lemma C2_witness :
  iteration (js "x" ++ [DQUOTE; DQUOTE]) 1 (mkState [] (js "x") true)
  = (3, mkState [] (js "x" ++ [DQUOTE]) true).
Proof.
  apply (proj1 C2_quotes_and_commas (js "x" ++ [DQUOTE; DQUOTE]) 1
           (mkState [] (js "x") true)); reflexivity.
Defined.

(** C6: the rows of a text are the rows of its lines that are not
    blank, a blank line being empty or made of white space only; so a
    blank line between two line feeds can be left out without changing
    the result, and no row is ever empty.  [a,b LF LF c,d] has the two
    rows [a],[b] and [c],[d]. *)
Theorem C6_blank_lines_are_skipped :
  (forall text,
      parseCSV text
      = map parseLine
          (filter (fun l => negb (is_blank l)) (split_lf text))) /\
  (forall pre blank post,
      is_blank blank = true ->
      parseCSV (pre ++ LF :: blank ++ LF :: post)
      = parseCSV (pre ++ LF :: post)) /\
  (forall text row, In row (parseCSV text) -> row <> []) /\
  parseCSV (js "a,b" ++ [LF; LF] ++ js "c,d")
  = [[js "a"; js "b"]; [js "c"; js "d"]].
Proof.
  repeat split.
  - apply parseCSV_filter.
  - intros pre blank post Hb.
    rewrite (parseCSV_app pre), (parseCSV_app blank), (parseCSV_app pre).
    now rewrite (parseCSV_blank blank Hb).
  - intros text row Hin ->. rewrite parseCSV_filter in Hin.
    apply in_map_iff in Hin as (l & Hl & _). unfold parseLine in Hl.
    now destruct (values (scan l init)).
Qed.

Lemma C6_witness :
  parseCSV (js "a,b" ++ LF :: js "  " ++ LF :: js "c,d")
  = parseCSV (js "a,b" ++ LF :: js "c,d").
Proof.
  apply (proj1 (proj2 C6_blank_lines_are_skipped) (js "a,b") (js "  ")
           (js "c,d")).
  reflexivity.
Defined.

(** C7: the loops of [parseCSV] always finish -- bounded by the length
    of the text they give the result of [parseCSV] -- and a line that
    ends in quote-mode has its last field pushed all the same, as if a
    closing quote stood at its end; the rows after a line feed are
    those of the rest of the text read on its own, so an open quote
    never reaches the next line. *)
Theorem C7_total_and_quotes_end_with_the_line :
  (forall text extra,
      parseCSV_fuel (length text + extra) text = Some (parseCSV text)) /\
  (forall line,
      ends_in_quotes line = true ->
      parseLine line = values (scan line init) ++ [current (scan line init)]
      /\ parseLine (line ++ [DQUOTE]) = parseLine line) /\
  (forall before after,
      parseCSV (before ++ LF :: after) = parseCSV before ++ parseCSV after) /\
  parseCSV ([DQUOTE] ++ js "a,b" ++ [LF] ++ js "c" ++ [DQUOTE] ++ js ",d")
  = [[js "a,b"]; [js "c,d"]].
Proof.
  split; [|split; [|split]].
  - intros text extra. unfold parseCSV_fuel, parseCSV.
    apply lines_rows_fuel_ok.
    eapply Forall_impl; [|apply split_lf_length]. simpl. intros; lia.
  - intros line Hq. split; [reflexivity|]. unfold parseLine.
    rewrite (scan_close_quote line init Hq). reflexivity.
  - apply parseCSV_app.
  - reflexivity.
Qed.

Lemma C7_witness :
  parseLine ([DQUOTE] ++ js "a,b" ++ [DQUOTE]) = parseLine ([DQUOTE] ++ js "a,b").
Proof.
  apply (proj2 (proj1 (proj2 C7_total_and_quotes_end_with_the_line)
                  ([DQUOTE] ++ js "a,b") eq_refl)).
Defined.

(** C10: only the line feed ends a line.  In a text whose lines are
    joined by CR LF, each line but the last is read with its carriage
    return, which ends up as the last code unit of the last field of
    its row, and a line that is a lone carriage return is blank and
    gives no row.  [a,b CR LF c,d] has the rows [a],[b CR] and
    [c],[d]. *)
Theorem C10_carriage_return_is_kept :
  (forall line,
      lf_free line = true ->
      parseCSV line = if is_blank line then [] else [parseLine line]) /\
  (forall lines,
      forallb lf_free lines = true ->
      parseCSV (join [CR; LF] lines) = crlf_rows lines) /\
  (forall line,
      parseLine (line ++ [CR])
      = removelast (parseLine line) ++ [last (parseLine line) [] ++ [CR]]) /\
  (forall pre post,
      parseCSV (pre ++ LF :: CR :: LF :: post) = parseCSV (pre ++ LF :: post)) /\
  parseCSV (js "a,b" ++ [CR; LF] ++ js "c,d")
  = [[js "a"; js "b" ++ [CR]]; [js "c"; js "d"]].
Proof.
  repeat split.
  - apply parseCSV_line.
  - apply parseCSV_crlf.
  - intros line. rewrite parseLine_cr. unfold parseLine.
    rewrite append_to_last_snoc, removelast_last, last_last. reflexivity.
  - intros pre post.
    change (CR :: LF :: post) with ([CR] ++ LF :: post).
    rewrite (parseCSV_app pre), (parseCSV_app [CR]), (parseCSV_app pre).
    reflexivity.
Qed.

Lemma C10_witness :
  parseCSV (join [CR; LF] [js "a,b"; []; js "c,d"])
  = [[js "a"; js "b" ++ [CR]]; [js "c"; js "d"]].
Proof.
  apply (proj1 (proj2 C10_carriage_return_is_kept) [js "a,b"; []; js "c,d"]).
  reflexivity.
Defined.

End TokenizerClaims.

(* ================================================================== *)
(** * Reading a well-formed sheet *)
(* ================================================================== *)

Section ReadClaims.
Import JS CSV Sheet Proxy Client Examples.





End ReadClaims.

(* ================================================================== *)
(** * Every path through the handler *)
(* ================================================================== *)

Section OutcomeFacts.
Import JS Proxy Outcome.

Lemma wf_json (v : value) (st : nat) :
  In st [200; 400; 401; 500] -> well_formed (json_response v st).
Proof.
  intros H. split; [exact H|]. unfold json_response.
  cbn [headers]. apply incl_appl, incl_refl.
Qed.

Lemma wf_error (msg : string) (st : nat) :
  In st [200; 400; 401; 500] -> well_formed (error_response msg st).
Proof. apply wf_json. Qed.

Lemma wf_internal (e : thrown) : well_formed (internal_error e).
Proof. apply wf_json. simpl. tauto. Qed.

(** The [catch] clause turns every exception into a 500 response and
    makes no call of its own. *)
Lemma try_catch_handler (m : M Response) (tr : list event) :
  try_catch m catch_handler tr
  = (inr (match fst (m tr) with
          | inr resp => resp
          | inl e => internal_error e
          end), snd (m tr)).
Proof.
  unfold try_catch. destruct (m tr) as [[e|resp] tr']; reflexivity.
Qed.

Lemma branch_ok_here (tr : list event) (resp : Response) :
  well_formed resp -> branch_ok tr (inr resp, tr).
Proof.
  intros Hwf. split.
  - intros r [= <-]. exact Hwf.
  - exists []. split; [now rewrite app_nil_r | now left].
Qed.

Lemma branch_ok_thrown (tr extra : list event) (e : thrown) :
  one_fetch extra -> branch_ok tr (inl e, tr ++ extra).
Proof.
  intros H. split; [discriminate|]. now exists extra.
Qed.

Lemma handle_read_ok (w : World) (userEmail : value) (tr : list event) :
  branch_ok tr (handle_read w userEmail tr).
Proof.
  unfold handle_read, bind, call, throw, ret.
  destruct (fetch w csvUrl None) as [e|resp].
  - apply branch_ok_thrown. right. exists csvUrl, None. auto.
  - destruct (ok resp); cbn [negb].
    + destruct (text resp) as [e|csv].
      * rewrite <- app_assoc. apply branch_ok_thrown.
        right. exists csvUrl, None. auto.
      * split.
        -- intros r [= <-]. apply wf_json. simpl. tauto.
        -- exists [Fetch csvUrl None; ReadText]. split.
           ++ cbn [snd]. now rewrite <- app_assoc.
           ++ right. exists csvUrl, None. auto.
    + apply branch_ok_thrown. right. exists csvUrl, None. auto.
Qed.

Lemma handle_update_ok (w : World) (row data userEmail : value)
  (tr : list event) :
  branch_ok tr (handle_update w row data userEmail tr).
Proof.
  unfold handle_update.
  destruct (negb (truthy row) || negb (truthy data)).
  { apply branch_ok_here, wf_error. simpl. tauto. }
  destruct (APPS_SCRIPT_URL w) as [url|].
  2:{ apply branch_ok_here, wf_error. simpl. tauto. }
  destruct (str_truthy url); cbn [negb].
  2:{ apply branch_ok_here, wf_error. simpl. tauto. }
  set (init := webhook_init row data userEmail).
  unfold bind, call, get_prop, throw, ret.
  destruct (fetch w url (Some init)) as [e|resp].
  { apply branch_ok_thrown. right. exists url, (Some init). auto. }
  assert (Htail : one_fetch [Fetch url (Some init); ReadJson]).
  { right. exists url, (Some init). auto. }
  destruct (json resp) as [e|answer].
  { rewrite <- app_assoc. now apply branch_ok_thrown. }
  assert (Hdone : forall r, well_formed r ->
            branch_ok tr (inr r, (tr ++ [Fetch url (Some init)]) ++ [ReadJson])).
  { intros r Hwf. split.
    - intros r' [= <-]. exact Hwf.
    - exists [Fetch url (Some init); ReadJson]. split; [|exact Htail].
      cbn [snd]. now rewrite <- app_assoc. }
  destruct answer; cbv beta iota;
    try (rewrite <- app_assoc; now apply branch_ok_thrown);
    match goal with
    | |- context [negb (truthy ?v)] =>
        destruct (negb (truthy v)); apply Hdone, wf_json; simpl; tauto
    end.
Qed.

Lemma dispatch_ok (w : World) (userEmail body : value) (tr : list event) :
  branch_ok tr (dispatch w userEmail body tr).
Proof.
  assert (Hgo : forall action row data,
            branch_ok tr
              ((if strict_eq_str action (js "read") then handle_read w userEmail
                else if strict_eq_str action (js "update")
                     then handle_update w row data userEmail
                     else ret (error_response "Invalid action" 400)) tr)).
  { intros action row data.
    destruct (strict_eq_str action (js "read")); [apply handle_read_ok|].
    destruct (strict_eq_str action (js "update")); [apply handle_update_ok|].
    apply branch_ok_here, wf_error. simpl. tauto. }
  unfold dispatch, bind, get_prop, throw, ret.
  destruct body; try apply Hgo;
    rewrite <- (app_nil_r tr) at 2; apply branch_ok_thrown; now left.
Qed.

End OutcomeFacts.

Section PathClaims.
Import JS Proxy Outcome Examples.

Lemma one_fetch_count (extra : list event) :
  one_fetch extra -> length (filter is_fetch extra) <= 1.
Proof.
  intros [-> | (url & init & [-> | [-> | ->]])]; simpl; lia.
Qed.

Lemma authenticated_identified (w : World) (req : Request) (u : User)
  (body : value) :
  authenticated w req u body
  <-> identified w req u /\ req_json req = inr body.
Proof.
  unfold authenticated, identified. split.
  - intros (Hm & h & c & H1 & H2 & H3 & H4 & H5).
    split; [|exact H5]. split; [exact Hm|]. now exists h, c.
  - intros [(Hm & h & c & H1 & H2 & H3 & H4) H5].
    split; [exact Hm|]. now exists h, c.
Qed.

Lemma auth_trace_identity (w : World) (req : Request) (u : User) :
  identified w req u ->
  auth_trace w req = identity_trace w req ++ [ReadRequestJson].
Proof.
  intros (_ & h & _ & Hh & _). unfold auth_trace, identity_trace.
  now rewrite Hh.
Qed.

Lemma auth_trace_no_fetch (w : World) (req : Request) :
  filter is_fetch (auth_trace w req) = [].
Proof. unfold auth_trace. now destruct (authorization req). Qed.

(** Either the caller is authenticated and the outcome is that of the
    dispatch, or the handler answers without any fetch. *)
Lemma serve_paths (w : World) (req : Request) :
  (exists u body,
      authenticated w req u body /\
      run (serve w req)
      = try_catch (dispatch w (email_value u) body) catch_handler
                  (auth_trace w req))
  \/ (exists resp tr,
         run (serve w req) = (inr resp, tr) /\ well_formed resp /\
         filter is_fetch tr = []).
Proof.
  unfold run, serve.
  destruct (str_eqb (method req) (js "OPTIONS")) eqn:Hm.
  { right. eexists _, _. split; [reflexivity|]. split; [|reflexivity].
    split; [simpl; tauto | apply incl_refl]. }
  destruct (authorization req) as [authHeader|] eqn:Hauth.
  2:{ right. eexists _, _. split; [reflexivity|]. split; [|reflexivity].
      apply wf_error. simpl. tauto. }
  destruct (str_truthy authHeader) eqn:Ht.
  2:{ right. eexists _, _. split; [reflexivity|]. split; [|reflexivity].
      apply wf_error. simpl. tauto. }
  rewrite try_catch_handler.
  unfold handle_authorized, bind, call.
  destruct (createClient w _ _) as [e|supabase] eqn:Hc.
  { right. eexists _, _. split; [reflexivity|]. split; [|reflexivity].
    apply wf_internal. }
  destruct (getUser supabase _) as [e|r] eqn:Hg.
  { right. eexists _, _. split; [reflexivity|]. split; [|reflexivity].
    apply wf_internal. }
  destruct r as [usr err].
  destruct err as [err|]; cbn [authError user].
  { right. eexists _, _. split; [reflexivity|]. split; [|reflexivity].
    apply wf_error. simpl. tauto. }
  destruct usr as [u|].
  2:{ right. eexists _, _. split; [reflexivity|]. split; [|reflexivity].
      apply wf_error. simpl. tauto. }
  destruct (req_json req) as [e|body] eqn:Hj.
  { right. eexists _, _. split; [reflexivity|]. split; [|reflexivity].
    apply wf_internal. }
  left. exists u, body.
  assert (Ha : authenticated w req u body).
  { split; [exact Hm|]. exists authHeader, supabase. auto. }
  split; [exact Ha|].
  rewrite try_catch_handler. unfold auth_trace. rewrite Hauth. reflexivity.
Qed.

(** X1: whatever the request and whatever the outside does, the
    handler answers -- no exception leaves it -- with status 200, 400,
    401 or 500 and with the cross-origin headers. *)
Theorem serve_always_responds (w : World) (req : Request) :
  exists resp,
    fst (run (serve w req)) = inr resp /\ well_formed resp.
Proof.
  destruct (serve_paths w req) as [(u & body & _ & ->) | (resp & tr & -> & Hwf & _)].
  - rewrite try_catch_handler. eexists. split; [reflexivity|].
    destruct (dispatch_ok w (email_value u) body (auth_trace w req)) as [Hwf _].
    destruct (fst (dispatch w (email_value u) body (auth_trace w req)))
      as [e|resp]; [apply wf_internal | now apply Hwf].
  - now exists resp.
Qed.

(** X2: one invocation makes at most one fetch, and only for a caller
    the identity provider has accepted and whose body could be read. *)
Theorem serve_fetches_once_and_only_when_authenticated (w : World)
  (req : Request) :
  length (filter is_fetch (snd (run (serve w req)))) <= 1 /\
  (forall url init,
      In (Fetch url init) (snd (run (serve w req))) ->
      exists u body, authenticated w req u body).
Proof.
  destruct (serve_paths w req) as [(u & body & Ha & ->) | (resp & tr & -> & _ & Hno)].
  - split; [|intros; now exists u, body].
    rewrite try_catch_handler. cbn [snd].
    destruct (dispatch_ok w (email_value u) body (auth_trace w req))
      as (_ & extra & -> & Hone).
    rewrite filter_app, auth_trace_no_fetch. now apply one_fetch_count.
  - cbn [snd]. rewrite Hno. split; [simpl; lia|].
    intros url init Hin. exfalso.
    assert (H : In (Fetch url init) (filter is_fetch tr))
      by (apply filter_In; now split).
    now rewrite Hno in H.
Qed.

Lemma serve_fetches_witness :
  exists u body, authenticated (world [] answer_ok) (post row_two) u body.
Proof.
  apply (proj2 (serve_fetches_once_and_only_when_authenticated
                  (world [] answer_ok) (post row_two))
           script_url
           (Some (webhook_init (field "row" row_two) (field "data" row_two)
                               (email_value ann)))).
  simpl. auto.
Defined.

End PathClaims.

(* ================================================================== *)
(** * The handler: refusals and failures *)
(* ================================================================== *)

Section ErrorPaths.
Import JS Proxy Outcome Examples Cases.



Lemma cases_authenticated (url : option jsstring)
  (sheet hook : result FetchResponse) (body : value) :
  authenticated (world_of accepts_ann url sheet hook) (post body) ann body.
Proof.
  split; [reflexivity|].
  eexists (js "Bearer token"), _. repeat split; reflexivity.
Qed.










(** X7: a validated update whose webhook call throws, answers
    something that is not JSON, or answers [null], is answered 500;
    in the last two cases the update had already been sent to the
    webhook.  Whether the webhook's HTTP status is a success plays no
    part. *)
Theorem update_failure_after_forward (w : World) (req : Request) (u : User)
  (body : value) (url : jsstring) :
  authenticated w req u body ->
  field "action" body = Str (js "update") ->
  truthy (field "row" body) = true ->
  truthy (field "data" body) = true ->
  webhook_configured w url ->
  let sent := Fetch url (Some (webhook_init (field "row" body)
                                 (field "data" body) (email_value u))) in
  (forall e,
      fetch w url (Some (webhook_init (field "row" body) (field "data" body)
                                      (email_value u))) = inl e ->
      run (serve w req) = (inr (internal_error e), auth_trace w req ++ [sent])) /\
  (forall resp e,
      fetch w url (Some (webhook_init (field "row" body) (field "data" body)
                                      (email_value u))) = inr resp ->
      json resp = inl e ->
      run (serve w req)
      = (inr (internal_error e), auth_trace w req ++ [sent; ReadJson])) /\
  (forall resp,
      fetch w url (Some (webhook_init (field "row" body) (field "data" body)
                                      (email_value u))) = inr resp ->
      json resp = inr Null ->
      run (serve w req)
      = (inr (internal_error
                (ErrorObject (type_error_message w (js "success")))),
         auth_trace w req ++ [sent; ReadJson])).
Proof.
  intros Hauth Hact Hr Hd Hcfg sent.
  rewrite (serve_authenticated _ _ _ _ Hauth).
  unfold try_catch. rewrite (dispatch_update _ _ _ _ Hact).
  rewrite (handle_update_valid w _ _ (email_value u) url _ Hr Hd Hcfg).
  unfold bind, call. repeat split.
  - intros e ->. reflexivity.
  - intros resp e -> ->. cbn. now rewrite <- app_assoc.
  - intros resp -> ->. cbn. now rewrite <- app_assoc.
Qed.

Lemma update_failure_witness :
  run (serve (world_of accepts_ann (Some script_url) sheet_down hook_html)
             (post row_two))
  = (inr (json_response (error_value (Str (js "Unexpected token '<'"))) 500),
     auth_trace (world_of accepts_ann (Some script_url) sheet_down hook_html)
                (post row_two)
     ++ [Fetch script_url
           (Some (webhook_init (field "row" row_two) (field "data" row_two)
                               (email_value ann)));
         ReadJson]).
Proof.
  assert (Hcfg : webhook_configured
                   (world_of accepts_ann (Some script_url) sheet_down hook_html)
                   script_url) by (split; reflexivity).
  apply (proj1 (proj2 (update_failure_after_forward
             (world_of accepts_ann (Some script_url) sheet_down hook_html)
             (post row_two) ann row_two script_url
             (cases_authenticated _ _ _ _) eq_refl eq_refl eq_refl Hcfg))
           (mkFetchResponse true (inr (js "<html>"))
              (inl (ErrorObject (js "Unexpected token '<'"))))
           (ErrorObject (js "Unexpected token '<'")) eq_refl eq_refl).
Defined.

End ErrorPaths.

Section TokenClaims.
Import JS Proxy Outcome Examples.





End TokenClaims.

(* ================================================================== *)
(** * The tokenizer: what the fields are made of *)
(* ================================================================== *)

Section FieldFacts.
Import JS CSV Sheet Fields.

Lemma join_cons (sep l : jsstring) (rest : list jsstring) :
  rest <> [] -> join sep (l :: rest) = l ++ sep ++ join sep rest.
Proof. destruct rest; [congruence | reflexivity]. Qed.

Lemma join_snoc_more (sep x t : jsstring) (vs : list jsstring) :
  join sep (vs ++ [x ++ t]) = join sep (vs ++ [x]) ++ t.
Proof.
  induction vs as [|v vs IH]; [reflexivity|].
  cbn [app]. rewrite !join_cons by (now destruct vs).
  rewrite IH. now rewrite <- !app_assoc.
Qed.

Lemma join_snoc_new (sep x : jsstring) (vs : list jsstring) :
  join sep ((vs ++ [x]) ++ [[]]) = join sep (vs ++ [x]) ++ sep.
Proof.
  induction vs as [|v vs IH].
  - simpl. now rewrite app_nil_r.
  - cbn [app]. rewrite !join_cons by (now destruct vs).
    rewrite IH. now rewrite <- !app_assoc.
Qed.

Lemma commas_app (a b : jsstring) : commas (a ++ b) = commas a + commas b.
Proof. unfold commas. now rewrite filter_app, length_app. Qed.

(** Without quotes the loop only cuts at commas. *)
Lemma scan_quote_free (l : jsstring) :
  quote_free l = true ->
  forall st, inQuotes st = false ->
    inQuotes (scan l st) = false /\
    join [COMMA] (values (scan l st) ++ [current (scan l st)])
    = join [COMMA] (values st ++ [current st]) ++ l /\
    length (values (scan l st)) = length (values st) + commas l /\
    (Forall (fun f => commas f = 0) (values st) -> commas (current st) = 0 ->
     Forall (fun f => commas f = 0) (values (scan l st))
     /\ commas (current (scan l st)) = 0).
Proof.
  induction l as [|c l IH]; intros Hq st Hst.
  - simpl. rewrite app_nil_r. unfold commas at 1. simpl. auto.
  - simpl in Hq. apply andb_true_iff in Hq as [Hc Hl].
    apply negb_true_iff in Hc. rewrite scan_cons, Hc, Hst. cbn [negb].
    rewrite andb_true_r.
    destruct (c =? COMMA)%N eqn:Hcomma.
    + apply N.eqb_eq in Hcomma. subst c.
      destruct (IH Hl (push st) Hst) as (H1 & H2 & H3 & H4).
      split; [exact H1|]. split; [|split].
      * rewrite H2. unfold push. cbn [values current].
        rewrite join_snoc_new. now rewrite <- app_assoc.
      * rewrite H3. unfold push, commas. cbn [values filter].
        rewrite length_app. simpl. lia.
      * intros Hv Hcur. apply H4; [|reflexivity].
        unfold push. cbn [values]. apply Forall_app. split; [exact Hv|].
        now constructor.
    + destruct (IH Hl (append st c) Hst) as (H1 & H2 & H3 & H4).
      split; [exact H1|]. split; [|split].
      * rewrite H2. unfold append. cbn [values current].
        rewrite join_snoc_more. now rewrite <- app_assoc.
      * rewrite H3. unfold append, commas. cbn [values filter].
        now rewrite Hcomma.
      * intros Hv Hcur. apply H4; [exact Hv|].
        unfold append. cbn [current]. rewrite commas_app, Hcur.
        unfold commas. simpl. now rewrite Hcomma.
Qed.

(** X9: a line without quotes is cut at its commas and nowhere else:
    its fields joined by commas give the line back, there is one field
    more than there are commas, and no field holds a comma. *)
Theorem quote_free_line_round_trip (line : jsstring) :
  quote_free line = true ->
  join [COMMA] (parseLine line) = line /\
  length (parseLine line) = S (commas line) /\
  Forall (fun f => commas f = 0) (parseLine line).
Proof.
  intros Hq.
  destruct (scan_quote_free line Hq init eq_refl) as (_ & H2 & H3 & H4).
  unfold parseLine. split; [exact H2|]. split.
  - rewrite length_app, H3. simpl. lia.
  - destruct (H4 (Forall_nil _) eq_refl) as [Hv Hc].
    apply Forall_app. split; [exact Hv|]. now constructor.
Qed.

Lemma quote_free_witness :
  join [COMMA] (parseLine (js " a ,,b c,")) = js " a ,,b c,"
  /\ length (parseLine (js " a ,,b c,")) = 4.
Proof.
  split.
  - apply (proj1 (quote_free_line_round_trip (js " a ,,b c,") eq_refl)).
  - apply (proj1 (proj2 (quote_free_line_round_trip (js " a ,,b c,") eq_refl))).
Defined.

End FieldFacts.

Section TextFacts.
Import JS CSV Sheet Fields Client.

Lemma blank_lines (s : jsstring) :
  forallb is_blank (split_lf s) = is_blank s.
Proof.
  induction s as [|c s IH]; [reflexivity|]. simpl.
  destruct (c =? LF)%N eqn:Hc.
  - apply N.eqb_eq in Hc. subst c. simpl. exact IH.
  - pose proof (split_lf_nonempty s) as Hne.
    destruct (split_lf s) as [|l ls]; [congruence|].
    simpl in *. rewrite <- IH. now rewrite andb_assoc.
Qed.

Lemma filter_nonblank_nil (ls : list jsstring) :
  filter (fun l => negb (is_blank l)) ls = [] <-> forallb is_blank ls = true.
Proof.
  induction ls as [|x ls IH]; simpl; [tauto|].
  destruct (is_blank x); simpl; [exact IH | split; discriminate].
Qed.

(** X10: the result has no row exactly when the text is white space
    from end to end (the empty text included); the client then keeps
    nothing of the read. *)
Theorem no_row_iff_blank_text (text : jsstring) :
  (parseCSV text = [] <-> is_blank text = true) /\
  (fetchData_sheet (parseCSV text) = None <-> is_blank text = true).
Proof.
  assert (H : parseCSV text = [] <-> is_blank text = true).
  { rewrite parseCSV_filter, <- blank_lines, <- filter_nonblank_nil. split.
    - apply map_eq_nil.
    - now intros ->. }
  split; [exact H|]. rewrite <- H.
  destruct (parseCSV text); simpl; split; congruence.
Qed.

Lemma no_row_witness : parseCSV (js "  " ++ [LF; CR; LF] ++ js " ") = [].
Proof.
  apply (proj1 (no_row_iff_blank_text (js "  " ++ [LF; CR; LF] ++ js " "))).
  reflexivity.
Defined.

(** The loop moves code units from the line to the state and makes
    none up. *)
Lemma scan_chars (l : jsstring) :
  forall st, incl (chars (scan l st)) (chars st ++ l).
Proof.
  assert (Happ : forall st c, chars (append st c) = chars st ++ [c]).
  { intros st c. unfold chars, append. cbn [values current].
    now rewrite app_assoc. }
  assert (Hpush : forall st, chars (push st) = chars st).
  { intros st. unfold chars, push. cbn [values current].
    rewrite concat_app. simpl. now rewrite !app_nil_r. }
  assert (Htog : forall st, chars (toggle st) = chars st) by reflexivity.
  assert (Hquote : forall rest st,
            incl (chars (scan rest (toggle st))) (chars (toggle st) ++ rest) ->
            incl (chars (scan rest (toggle st))) (chars st ++ DQUOTE :: rest)).
  { intros rest st IH c Hin. apply IH in Hin. rewrite Htog in Hin.
    apply in_app_iff in Hin as [Hin|Hin]; apply in_app_iff; [now left|].
    right. now right. }
  induction l as [| a | a b l IHl IHbl] using scan_ind2; intros st.
  - simpl. now rewrite app_nil_r.
  - rewrite scan_cons.
    destruct (a =? DQUOTE)%N eqn:Ha.
    + apply N.eqb_eq in Ha. subst a.
      assert (H : incl (chars (scan [] (toggle st))) (chars st ++ [DQUOTE])).
      { apply Hquote. simpl. rewrite app_nil_r. apply incl_refl. }
      destruct (inQuotes st); exact H.
    + destruct ((a =? COMMA)%N && negb (inQuotes st)); simpl.
      * rewrite Hpush. apply incl_appl, incl_refl.
      * rewrite Happ. apply incl_refl.
  - rewrite scan_cons.
    destruct (a =? DQUOTE)%N eqn:Ha.
    + apply N.eqb_eq in Ha. subst a.
      destruct (inQuotes st).
      * destruct (b =? DQUOTE)%N eqn:Hb.
        -- apply N.eqb_eq in Hb. subst b.
           intros c Hin. apply IHl in Hin. rewrite Happ in Hin.
           rewrite !in_app_iff in Hin. simpl in Hin. rewrite in_app_iff. simpl.
           tauto.
        -- apply Hquote, IHbl.
      * apply Hquote, IHbl.
    + destruct ((a =? COMMA)%N && negb (inQuotes st)).
      * intros c Hin. apply IHbl in Hin. rewrite Hpush in Hin.
        rewrite in_app_iff in *. simpl. simpl in Hin. tauto.
      * intros c Hin. apply IHbl in Hin. rewrite Happ in Hin.
        rewrite !in_app_iff in *. simpl in *. tauto.
Qed.

Lemma split_lf_in (s l : jsstring) (c : code_unit) :
  In l (split_lf s) -> In c l -> In c s /\ c <> LF.
Proof.
  revert l. induction s as [|a s IH]; intros l.
  - simpl. intros [<-|[]] [].
  - simpl. destruct (a =? LF)%N eqn:Ha.
    + intros [<-|Hin] Hc; [destruct Hc|].
      destruct (IH l Hin Hc). auto.
    + pose proof (split_lf_nonempty s) as Hne.
      destruct (split_lf s) as [|l0 ls]; [congruence|].
      intros [<-|Hin] Hc.
      * destruct Hc as [<-|Hc].
        -- split; [now left|]. intros ->. discriminate.
        -- destruct (IH l0 (or_introl eq_refl) Hc). auto.
      * destruct (IH l (or_intror Hin) Hc). auto.
Qed.

(** X11: every code unit of every field of the result is a code unit
    of the text, and none is a line feed: the tokenizer drops and
    regroups, it never adds. *)
Theorem fields_are_made_of_the_text (text : jsstring)
  (row : list jsstring) (f : jsstring) (c : code_unit) :
  In row (parseCSV text) -> In f row -> In c f ->
  In c text /\ c <> LF.
Proof.
  intros Hrow Hf Hc. rewrite parseCSV_filter in Hrow.
  apply in_map_iff in Hrow as (line & <- & Hline).
  apply filter_In in Hline as [Hline _].
  apply (split_lf_in text line c Hline).
  assert (Hin : In c (chars (scan line init))).
  { unfold chars. unfold parseLine in Hf.
    apply in_app_iff in Hf as [Hf | [<- | []]]; apply in_app_iff.
    - left. apply in_concat. now exists f.
    - now right. }
  apply scan_chars in Hin. exact Hin.
Qed.

Lemma fields_witness :
  In 98%N ([DQUOTE] ++ js "a,b" ++ [LF] ++ js "c") /\ 98%N <> LF.
Proof.
  apply (fields_are_made_of_the_text
           ([DQUOTE] ++ js "a,b" ++ [LF] ++ js "c") [js "a,b"] (js "a,b") 98%N).
  - simpl. auto.
  - simpl. auto.
  - simpl. auto.
Defined.

End TextFacts.

Section BoundFacts.
Import JS CSV Sheet Fields Client.

Lemma weight_append (st : loop_state) (c : code_unit) :
  weight (append st c) = S (weight st).
Proof.
  unfold weight, chars, append. cbn [values current].
  rewrite !length_app. simpl. lia.
Qed.

Lemma weight_push (st : loop_state) : weight (push st) = S (weight st).
Proof.
  unfold weight, chars, push. cbn [values current].
  rewrite concat_app, !length_app. simpl. rewrite !length_app. simpl. lia.
Qed.

Lemma scan_weight (l : jsstring) :
  forall st, weight (scan l st) <= weight st + length l.
Proof.
  assert (Htog : forall st, weight (toggle st) = weight st) by reflexivity.
  induction l as [| a | a b l IHl IHbl] using scan_ind2; intros st.
  - simpl. lia.
  - rewrite scan_cons. simpl scan.
    destruct (a =? DQUOTE)%N.
    + destruct (inQuotes st); rewrite Htog; simpl; lia.
    + destruct ((a =? COMMA)%N && negb (inQuotes st));
        rewrite ?weight_push, ?weight_append; simpl; lia.
  - rewrite scan_cons.
    assert (Hq : weight (scan (b :: l) (toggle st))
                 <= weight st + length (a :: b :: l)).
    { specialize (IHbl (toggle st)). rewrite Htog in IHbl. simpl in *. lia. }
    destruct (a =? DQUOTE)%N.
    + destruct (inQuotes st); [|exact Hq].
      destruct (b =? DQUOTE)%N; [|exact Hq].
      specialize (IHl (append st DQUOTE)). rewrite weight_append in IHl.
      simpl. lia.
    + destruct ((a =? COMMA)%N && negb (inQuotes st)).
      * specialize (IHbl (push st)). rewrite weight_push in IHbl.
        simpl in *. lia.
      * specialize (IHbl (append st a)). rewrite weight_append in IHbl.
        simpl in *. lia.
Qed.

Lemma parseLine_size (line : jsstring) :
  length (concat (parseLine line)) + length (parseLine line)
  <= S (length line).
Proof.
  pose proof (scan_weight line init) as H.
  unfold weight, chars, parseLine in *. simpl in H.
  rewrite concat_app, !length_app in *. simpl. rewrite app_nil_r. lia.
Qed.

Lemma split_lf_size (s : jsstring) :
  length (split_lf s) = S (line_feeds s) /\
  length (concat (split_lf s)) + line_feeds s = length s.
Proof.
  unfold line_feeds. induction s as [|c s [IH1 IH2]]; [split; reflexivity|].
  simpl. destruct (c =? LF)%N.
  - simpl. split; lia.
  - pose proof (split_lf_nonempty s) as Hne.
    destruct (split_lf s) as [|l ls]; [congruence|].
    simpl in *. rewrite length_app in *. simpl. split; lia.
Qed.

Lemma rows_size (lines : list jsstring) :
  length (concat (concat (map parseLine
            (filter (fun l => negb (is_blank l)) lines))))
  <= length (concat lines).
Proof.
  induction lines as [|l ls IH]; [reflexivity|]. simpl.
  rewrite length_app. destruct (is_blank l); simpl.
  { eapply Nat.le_trans; [exact IH | apply Nat.le_add_l]. }
  rewrite concat_app, length_app.
  pose proof (parseLine_size l) as Hl.
  assert (Hpos : 1 <= length (parseLine l)).
  { unfold parseLine. rewrite length_app. simpl. lia. }
  apply Nat.add_le_mono; [lia | exact IH].
Qed.

(** X12: the result is never larger than the text.  The fields of a
    row hold, together with one unit for each field after the first,
    at most as many code units as the line; there are at most as many
    rows as lines, one more than there are line feeds; and the fields
    of all rows hold at most as many code units as the text. *)
Theorem result_is_bounded_by_the_text :
  (forall line,
      length (concat (parseLine line)) + (length (parseLine line) - 1)
      <= length line) /\
  (forall text, length (parseCSV text) <= S (line_feeds text)) /\
  (forall text,
      length (concat (concat (parseCSV text))) + line_feeds text
      <= length text).
Proof.
  split; [|split].
  - intros line. pose proof (parseLine_size line) as H.
    assert (Hpos : 1 <= length (parseLine line)).
    { unfold parseLine. rewrite length_app. simpl. lia. }
    unfold jsstring, code_unit in *. lia.
  - intros text. rewrite parseCSV_filter, length_map.
    destruct (split_lf_size text) as [<- _]. apply filter_length_le.
  - intros text. rewrite parseCSV_filter.
    pose proof (rows_size (split_lf text)) as H1.
    destruct (split_lf_size text) as [_ H2].
    unfold jsstring, code_unit in *. lia.
Qed.

Lemma prepend_scan (first : list jsstring) (l : jsstring) :
  forall st, scan l (after first st) = after first (scan l st).
Proof.
  assert (Ha : forall st c, append (after first st) c = after first (append st c))
    by reflexivity.
  assert (Ht : forall st, toggle (after first st) = after first (toggle st))
    by reflexivity.
  assert (Hp : forall st, push (after first st) = after first (push st)).
  { intros st. unfold push, after. cbn [values current inQuotes].
    now rewrite app_assoc. }
  induction l as [| a | a b l IHl IHbl] using scan_ind2; intros st.
  - reflexivity.
  - rewrite !scan_cons. cbn [inQuotes after]. simpl scan.
    destruct (a =? DQUOTE)%N.
    + destruct (inQuotes st); apply Ht.
    + destruct ((a =? COMMA)%N && negb (inQuotes st)); [apply Hp | apply Ha].
  - rewrite !(scan_cons a). cbn [inQuotes after].
    fold (after first st).
    destruct (a =? DQUOTE)%N.
    + destruct (inQuotes st).
      * destruct (b =? DQUOTE)%N; [rewrite Ha; apply IHl | rewrite Ht; apply IHbl].
      * rewrite Ht; apply IHbl.
    + destruct ((a =? COMMA)%N && negb (inQuotes st));
        [rewrite Hp | rewrite Ha]; apply IHbl.
Qed.

(** X13: empty fields at the ends of a line are kept.  A comma at the
    start gives an empty first field; a comma at the end gives an
    empty last field, unless the line is in quote-mode there, in which
    case the comma goes into the last field. *)
Theorem commas_at_the_ends (line : jsstring) :
  parseLine (COMMA :: line) = [] :: parseLine line /\
  (ends_in_quotes line = false ->
   parseLine (line ++ [COMMA]) = parseLine line ++ [[]]) /\
  (ends_in_quotes line = true ->
   parseLine (line ++ [COMMA]) = append_to_last (parseLine line) COMMA).
Proof.
  split; [|split].
  - unfold parseLine. rewrite scan_cons. simpl.
    change (push init) with (after [[]] init).
    now rewrite prepend_scan.
  - unfold ends_in_quotes, parseLine. intros Hq.
    rewrite scan_snoc by reflexivity. rewrite scan_cons. simpl.
    rewrite Hq. reflexivity.
  - unfold ends_in_quotes, parseLine. intros Hq.
    rewrite scan_snoc by reflexivity. rewrite scan_cons. simpl.
    rewrite Hq. simpl. now rewrite append_to_last_snoc.
Qed.

Lemma commas_at_the_ends_witness :
  parseLine (js "a,b" ++ [COMMA]) = parseLine (js "a,b") ++ [[]] /\
  parseLine (([DQUOTE] ++ js "a") ++ [COMMA])
  = append_to_last (parseLine ([DQUOTE] ++ js "a")) COMMA.
Proof.
  split.
  - apply (proj1 (proj2 (commas_at_the_ends (js "a,b")))). reflexivity.
  - apply (proj2 (proj2 (commas_at_the_ends ([DQUOTE] ++ js "a")))).
    reflexivity.
Defined.

End BoundFacts.

(* ================================================================== *)
(** * Row numbers: from the text to the client and back *)
(* ================================================================== *)

Section RowNumbers.
Import JS CSV Sheet Fields Client.

Lemma filter_no_blank (lines : list jsstring) :
  no_blank lines = true ->
  filter (fun l => negb (is_blank l)) lines = lines.
Proof.
  unfold no_blank. induction lines as [|l ls IH]; [reflexivity|]. simpl.
  intros H. apply andb_true_iff in H as [-> Hls]. now rewrite (IH Hls).
Qed.

Lemma parseCSV_lines (lines : list jsstring) :
  lines <> [] -> forallb lf_free lines = true ->
  parseCSV (join [LF] lines)
  = map parseLine (filter (fun l => negb (is_blank l)) lines).
Proof.
  intros Hne Hlf. now rewrite parseCSV_filter, split_lf_join.
Qed.

(** X14: when no line of the text is blank, the data row the client
    holds at index [i] was read from the line at index [i + 1] of the
    text, counting from 0, that is from line [i + 2] counting from 1:
    the row number that a save of this row sends. *)
Theorem client_row_is_line_i_plus_two (lines : list jsstring)
  (sheet : SheetData) (i : nat) (row : list jsstring) :
  forallb lf_free lines = true -> no_blank lines = true ->
  fetchData_sheet (parseCSV (join [LF] lines)) = Some sheet ->
  nth_error (rows sheet) i = Some row ->
  exists line,
    nth_error lines (i + 1) = Some line /\ row = parseLine line /\
    row_number i = Num (num_of_Z (Z.of_nat (i + 1) + 1)).
Proof.
  intros Hlf Hnb Hsheet Hrow.
  destruct lines as [|header data]; [discriminate Hsheet|].
  rewrite parseCSV_lines, filter_no_blank in Hsheet
    by (assumption || discriminate).
  simpl in Hsheet. injection Hsheet as <-. simpl in Hrow.
  rewrite nth_error_map in Hrow.
  replace (i + 1) with (S i) by lia. simpl.
  destruct (nth_error data i) as [line|]; [|discriminate].
  exists line. injection Hrow as <-. repeat split.
  unfold row_number. do 2 f_equal. lia.
Qed.

Lemma client_row_witness :
  exists line,
    nth_error [js "email,name"; js "ann@example.com,Ann"; js "bob@example.com,Bob"] (1 + 1)
    = Some line /\
    [js "bob@example.com"; js "Bob"] = parseLine line /\
    row_number 1 = Num (num_of_Z (Z.of_nat (1 + 1) + 1)).
Proof.
  apply (client_row_is_line_i_plus_two
           [js "email,name"; js "ann@example.com,Ann"; js "bob@example.com,Bob"]
           (mkSheet [js "email"; js "name"]
              [[js "ann@example.com"; js "Ann"]; [js "bob@example.com"; js "Bob"]])
           1 [js "bob@example.com"; js "Bob"]);
    reflexivity.
Defined.

(** X15: a blank line shifts what follows it.  With one blank line
    after the lines [before], a data row the client holds at an index
    [i] past them was read from the line at index [i + 2], counting
    from 0: one line further than the row number of its save
    designates. *)
Theorem blank_line_shifts_rows (before after_it : list jsstring)
  (blank : jsstring) (sheet : SheetData) (i : nat) (row : list jsstring) :
  before <> [] ->
  forallb lf_free (before ++ blank :: after_it) = true ->
  no_blank before = true -> no_blank after_it = true ->
  is_blank blank = true ->
  fetchData_sheet (parseCSV (join [LF] (before ++ blank :: after_it)))
  = Some sheet ->
  length before <= i + 1 ->
  nth_error (rows sheet) i = Some row ->
  exists line,
    nth_error (before ++ blank :: after_it) (i + 2) = Some line /\
    row = parseLine line.
Proof.
  intros Hne Hlf Hb Ha Hblank Hsheet Hi Hrow.
  rewrite parseCSV_lines in Hsheet by (assumption || now destruct before).
  rewrite filter_app in Hsheet. simpl in Hsheet. rewrite Hblank in Hsheet.
  simpl in Hsheet. rewrite !filter_no_blank in Hsheet by assumption.
  destruct before as [|header data]; [congruence|].
  simpl in Hsheet. injection Hsheet as <-. simpl in Hrow, Hi.
  rewrite nth_error_map in Hrow.
  destruct (nth_error (data ++ after_it) i) as [line|] eqn:E; [|discriminate].
  exists line. injection Hrow as <-. split; [|reflexivity].
  replace (i + 2) with (S (S i)) by lia.
  change (nth_error ((header :: data) ++ blank :: after_it) (S (S i)))
    with (nth_error (data ++ blank :: after_it) (S i)).
  rewrite nth_error_app2 in E by lia.
  rewrite nth_error_app2 by lia.
  replace (S i - length data) with (S (i - length data)) by lia. exact E.
Qed.

Lemma blank_line_witness :
  exists line,
    nth_error ([js "email"; js "ann@example.com"] ++ [] :: [js "bob@example.com"])
              (1 + 2) = Some line /\
    [js "bob@example.com"] = parseLine line.
Proof.
  apply (blank_line_shifts_rows [js "email"; js "ann@example.com"]
           [js "bob@example.com"] []
           (mkSheet [js "email"] [[js "ann@example.com"]; [js "bob@example.com"]])
           1 [js "bob@example.com"]);
    try reflexivity; try discriminate.
Defined.

End RowNumbers.

(* ================================================================== *)
(** * The editor *)
(* ================================================================== *)

Section EditorFacts.
Import JS CSV Client Editor.

Lemma trimStart_idem (s : jsstring) : trimStart (trimStart s) = trimStart s.
Proof.
  induction s as [|c s IH]; [reflexivity|]. simpl.
  destruct (is_whitespace c) eqn:Hc; [exact IH|]. simpl. now rewrite Hc.
Qed.

Lemma trimStart_split (s : jsstring) :
  exists ws, s = ws ++ trimStart s.
Proof.
  induction s as [|c s [ws IH]]; [now exists []|]. simpl.
  destruct (is_whitespace c).
  - exists (c :: ws). simpl. now f_equal.
  - now exists [].
Qed.

Lemma trimStart_fixed (s : jsstring) :
  match s with [] => True | c :: _ => is_whitespace c = false end ->
  trimStart s = s.
Proof. destruct s as [|c s]; [reflexivity|]. simpl. now intros ->. Qed.

(** Trimming twice is trimming once. *)
Lemma trim_idem (s : jsstring) : trim (trim s) = trim s.
Proof.
  unfold trim, trimEnd.
  set (t := trimStart s).
  set (u := rev (trimStart (rev t))).
  assert (Hu : trimStart u = u).
  { apply trimStart_fixed. destruct u as [|c u'] eqn:Eu; [exact I|].
    destruct (trimStart_split (rev t)) as [ws Hws].
    assert (Ht : t = u ++ rev ws).
    { rewrite <- (rev_involutive t), Hws, rev_app_distr. reflexivity. }
    rewrite Eu in Ht. simpl in Ht.
    apply (trimStart_head s (u' ++ rev ws) c). exact Ht. }
  rewrite Hu. unfold u. rewrite rev_involutive, trimStart_idem. reflexivity.
Qed.

(** X16: a row can be edited only by a user whose lower-cased email
    has no white space at either end: the first cell is trimmed before
    the comparison, the email of the user is not. *)
Theorem editable_needs_trimmed_email (toLowerCase : jsstring -> jsstring)
  (user : option (option jsstring)) (row : list jsstring) :
  canEditRow toLowerCase user row = true ->
  trim (userEmail toLowerCase user) = userEmail toLowerCase user.
Proof.
  unfold canEditRow. destruct (nth_error row 0) as [cell|]; [|discriminate].
  intros H. apply str_eqb_eq in H. rewrite <- H. apply trim_idem.
Qed.

Lemma editable_witness :
  trim (userEmail ascii_lower (Some (Some (js "Ann@Example.com"))))
  = userEmail ascii_lower (Some (Some (js "Ann@Example.com"))).
Proof.
  apply (editable_needs_trimmed_email ascii_lower
           (Some (Some (js "Ann@Example.com")))
           [js " ann@example.COM "; js "Ann"]).
  reflexivity.
Defined.

(** X17: for a visitor without an email -- nobody signed in, or a user
    whose account has none -- the rows shown as editable are exactly
    those whose first cell is white space only once lower-cased, the
    empty cell among them. *)
Theorem no_email_edits_blank_rows (toLowerCase : jsstring -> jsstring)
  (user : option (option jsstring)) (cell : jsstring)
  (rest : list jsstring) :
  user = None \/ user = Some None ->
  userEmail toLowerCase user = [] /\
  (canEditRow toLowerCase user (cell :: rest) = true
   <-> is_blank (toLowerCase cell) = true).
Proof.
  intros Huser.
  assert (He : userEmail toLowerCase user = [])
    by (destruct Huser as [-> | ->]; reflexivity).
  split; [exact He|]. unfold canEditRow. cbn [nth_error]. rewrite He.
  pose proof (trim_truthy_blank (toLowerCase cell)) as Ht.
  destruct (trim (toLowerCase cell)) as [|c t]; simpl in *.
  - apply (f_equal negb) in Ht. rewrite negb_involutive in Ht. simpl in Ht.
    rewrite <- Ht. tauto.
  - apply (f_equal negb) in Ht. rewrite negb_involutive in Ht. simpl in Ht.
    rewrite <- Ht. split; discriminate.
Qed.

Lemma no_email_witness :
  canEditRow ascii_lower None ([] :: [js "Ann"]) = true.
Proof.
  apply (proj2 (no_email_edits_blank_rows ascii_lower None [] [js "Ann"]
                  (or_introl eq_refl))).
  reflexivity.
Defined.

End EditorFacts.

Section RecordFacts.
Import JS CSV Client Editor.

Lemma str_eqb_neq (a b : jsstring) : a <> b -> str_eqb a b = false.
Proof.
  intros H. destruct (str_eqb a b) eqn:E; [|reflexivity].
  apply str_eqb_eq in E. contradiction.
Qed.

Lemma get_put_same (obj : record) (k v : jsstring) :
  get (put obj k v) k = Some v.
Proof.
  induction obj as [|[k' v'] rest IH]; simpl.
  - now rewrite str_eqb_refl.
  - destruct (str_eqb k' k) eqn:E; simpl; rewrite E; [reflexivity | exact IH].
Qed.

Lemma get_put_other (obj : record) (k v k0 : jsstring) :
  k <> k0 -> get (put obj k v) k0 = get obj k0.
Proof.
  intros Hne. induction obj as [|[k' v'] rest IH]; simpl.
  - now rewrite (str_eqb_neq _ _ Hne).
  - destruct (str_eqb k' k) eqn:E; simpl.
    + apply str_eqb_eq in E. subst k'. now rewrite (str_eqb_neq _ _ Hne).
    + now rewrite IH.
Qed.

Lemma keys_put (obj : record) (k v k0 : jsstring) :
  In k0 (map fst (put obj k v)) <-> In k0 (map fst obj) \/ k0 = k.
Proof.
  induction obj as [|[k' v'] rest IH]; simpl.
  - intuition.
  - destruct (str_eqb k' k) eqn:E; simpl.
    + apply str_eqb_eq in E. subst k'. intuition.
    + rewrite IH. intuition.
Qed.

Lemma nodup_put (obj : record) (k v : jsstring) :
  NoDup (map fst obj) -> NoDup (map fst (put obj k v)).
Proof.
  induction obj as [|[k' v'] rest IH]; simpl; intros Hnd.
  - constructor; [intros [] | constructor].
  - inversion Hnd as [|? ? Hnot Hrest]; subst.
    destruct (str_eqb k' k) eqn:E; simpl.
    + now constructor.
    + constructor; [|now apply IH].
      rewrite keys_put. intros [Hin | ->]; [contradiction|].
      now rewrite str_eqb_refl in E.
Qed.

Lemma get_assign_other (obj : record) (k v k0 : jsstring) :
  k <> k0 \/ k0 = PROTO -> get (assign obj k v) k0 = get obj k0.
Proof.
  intros H. unfold assign. destruct (str_eqb k PROTO) eqn:E; [reflexivity|].
  apply get_put_other. destruct H as [H | ->]; [exact H|].
  intros ->. now rewrite str_eqb_refl in E.
Qed.

Lemma get_assign_same (obj : record) (k v : jsstring) :
  k <> PROTO -> get (assign obj k v) k = Some v.
Proof.
  intros H. unfold assign. rewrite (str_eqb_neq _ _ H). apply get_put_same.
Qed.

Lemma forEach_get_other (headers : list jsstring) :
  forall i row obj k,
    ~ In k headers \/ k = PROTO ->
    get (forEach_header headers i row obj) k = get obj k.
Proof.
  induction headers as [|h rest IH]; intros i row obj k Hk; [reflexivity|].
  simpl. rewrite IH.
  - apply get_assign_other. destruct Hk as [Hk | ->]; [|now right].
    left. intros ->. apply Hk. now left.
  - destruct Hk as [Hk | ->]; [|now right]. left. intros Hin. apply Hk.
    now right.
Qed.

Lemma forEach_get_last (headers : list jsstring) :
  forall i row obj j h,
    nth_error headers j = Some h -> h <> PROTO ->
    (forall j', j < j' -> nth_error headers j' <> Some h) ->
    get (forEach_header headers i row obj) h = Some (cell_or_empty row (i + j)).
Proof.
  induction headers as [|h0 rest IH]; intros i row obj j h Hj Hp Hlast.
  - now destruct j.
  - destruct j as [|j]; simpl in Hj.
    + injection Hj as ->. simpl. rewrite forEach_get_other.
      * rewrite Nat.add_0_r. now apply get_assign_same.
      * left. intros Hin. apply In_nth_error in Hin as [j' Hj'].
        apply (Hlast (S j')); [lia | exact Hj'].
    + simpl. rewrite (IH (S i) row _ j h Hj Hp).
      * f_equal. f_equal. lia.
      * intros j' Hlt. apply (Hlast (S j')). lia.
Qed.

Lemma forEach_keys (headers : list jsstring) :
  forall i row obj k,
    In k (map fst (forEach_header headers i row obj))
    <-> In k (map fst obj) \/ (In k headers /\ k <> PROTO).
Proof.
  induction headers as [|h rest IH]; intros i row obj k; simpl.
  - intuition.
  - rewrite IH. unfold assign.
    destruct (str_eqb h PROTO) eqn:E.
    + apply str_eqb_eq in E. subst h. intuition congruence.
    + rewrite keys_put.
      assert (h <> PROTO) by (intros ->; now rewrite str_eqb_refl in E).
      intuition congruence.
Qed.

Lemma forEach_nodup (headers : list jsstring) :
  forall i row obj,
    NoDup (map fst obj) ->
    NoDup (map fst (forEach_header headers i row obj)).
Proof.
  induction headers as [|h rest IH]; intros i row obj Hnd; [exact Hnd|].
  simpl. apply IH. unfold assign.
  destruct (str_eqb h PROTO); [exact Hnd | now apply nodup_put].
Qed.

(** X18: the edit of a row holds, for each header, the cell of the
    last column that bears it, and the empty string where the row is
    shorter than the headers; a header named [__proto__] gets no
    entry. *)
Theorem edit_holds_last_column_of_each_header (d : SheetData)
  (rowIndex : nat) (row : list jsstring) :
  nth_error (rows d) rowIndex = Some row ->
  exists editData,
    handleEdit (Some d) rowIndex = Editing editData rowIndex /\
    (forall i h,
        nth_error (headers d) i = Some h -> h <> PROTO ->
        (forall j, i < j -> nth_error (headers d) j <> Some h) ->
        get editData h = Some (cell_or_empty row i)) /\
    (forall i, length row <= i -> cell_or_empty row i = []) /\
    get editData PROTO = None.
Proof.
  intros Hrow. unfold handleEdit. rewrite Hrow.
  eexists. split; [reflexivity|]. split; [|split].
  - intros i h Hi Hp Hlast.
    now rewrite (forEach_get_last (headers d) 0 row [] i h Hi Hp Hlast).
  - intros i Hi. unfold cell_or_empty.
    apply nth_error_None in Hi. now rewrite Hi.
  - rewrite forEach_get_other; [reflexivity | now right].
Qed.

Lemma edit_witness :
  exists editData,
    handleEdit (Some (mkSheet [js "email"; js "note"; js "note"]
                              [[js "a@b.c"; js "first"; js "second"]])) 0
    = Editing editData 0 /\
    get editData (js "note") = Some (js "second").
Proof.
  destruct (edit_holds_last_column_of_each_header
              (mkSheet [js "email"; js "note"; js "note"]
                       [[js "a@b.c"; js "first"; js "second"]])
              0 [js "a@b.c"; js "first"; js "second"] eq_refl)
    as (editData & Hedit & Hget & _).
  exists editData. split; [exact Hedit|].
  apply (Hget 2 (js "note") eq_refl).
  - discriminate.
  - intros j Hj. destruct j as [|[|[|j]]]; try lia; simpl; now destruct j.
Defined.

(** X19: the edit has exactly one entry for each distinct header other
    than [__proto__], so with a repeated header it holds fewer entries
    than the sheet has columns. *)
Theorem edit_has_one_entry_per_header (d : SheetData) (rowIndex : nat)
  (row : list jsstring) :
  nth_error (rows d) rowIndex = Some row ->
  exists editData,
    handleEdit (Some d) rowIndex = Editing editData rowIndex /\
    NoDup (map fst editData) /\
    (forall k, In k (map fst editData)
               <-> In k (headers d) /\ k <> PROTO) /\
    length editData <= length (headers d) /\
    (~ NoDup (headers d) -> length editData < length (headers d)).
Proof.
  intros Hrow. unfold handleEdit. rewrite Hrow.
  set (editData := forEach_header (headers d) 0 row []).
  exists editData.
  assert (Hnd : NoDup (map fst editData))
    by (apply forEach_nodup; constructor).
  assert (Hkeys : forall k, In k (map fst editData)
                            <-> In k (headers d) /\ k <> PROTO).
  { intros k. unfold editData. rewrite forEach_keys. simpl. tauto. }
  assert (Hincl : incl (map fst editData) (headers d)).
  { intros k Hk. now apply Hkeys in Hk. }
  split; [reflexivity|]. split; [exact Hnd|]. split; [exact Hkeys|].
  rewrite <- (length_map fst editData). split.
  - now apply NoDup_incl_length.
  - intros Hdup.
    destruct (Nat.lt_ge_cases (length (map fst editData)) (length (headers d)))
      as [Hlt | Hge]; [exact Hlt|].
    exfalso. apply Hdup.
    apply (NoDup_incl_NoDup Hnd Hge Hincl).
Qed.

Lemma edit_entries_witness :
  exists editData,
    handleEdit (Some (mkSheet [js "email"; js "note"]
                              [[js "a@b.c"; js "first"]])) 0
    = Editing editData 0 /\
    NoDup (map fst editData).
Proof.
  destruct (edit_has_one_entry_per_header
              (mkSheet [js "email"; js "note"] [[js "a@b.c"; js "first"]])
              0 [js "a@b.c"; js "first"] eq_refl)
    as (editData & Hedit & Hnd & _).
  now exists editData.
Defined.

End RecordFacts.

(* ================================================================== *)
(** * The sign-in page: what a submit does *)
(* ================================================================== *)

Section AuthPageFacts.
Import JS Outcome AuthPage.

Ltac open_submit :=
  unfold submit, handleSubmit, validateInputs, report, try_finally,
         bind, emit, call, ret.

Ltac submit_cases h isLogin email password :=
  open_submit;
  destruct (email_ok h email) eqn:Hemail;
  [ destruct (6 <=? length password) eqn:Hlen;
    [ destruct isLogin;
      [ destruct (signIn h email password) as [e|[err|]] eqn:Hcall;
        [ | destruct (includes (message err) (js "Invalid login credentials")) | ]
      | destruct (signUp h email password) as [e|[err|]] eqn:Hcall;
        [ | destruct (includes (message err) (js "already registered")) | ] ]
    | ]
  | ];
  cbn [negb fst snd app filter is_toast is_provider_call is_loading length].

(** X20: the provider is asked at most once, with the email and the
    password of the form as they are, and only when the email passes
    the email check and the password has at least 6 code units; sign-in
    in login mode, sign-up otherwise. *)
Theorem provider_called_only_with_valid_inputs (h : Hooks) (isLogin : bool)
  (email password : jsstring) :
  let tr := snd (submit h isLogin email password) in
  length (filter is_provider_call tr) <= 1 /\
  (forall ev, In ev tr -> is_provider_call ev = true ->
     email_ok h email = true /\ 6 <= length password /\
     ev = (if isLogin then SignIn email password
           else SignUp email password)).
Proof.
  submit_cases h isLogin email password;
    (split; [simpl; lia|]);
    intros ev Hin Hev;
    try (apply Nat.leb_le in Hlen);
    simpl in Hin;
    repeat (destruct Hin as [<- | Hin]; try discriminate Hev; auto);
    try contradiction.
Qed.

Lemma provider_witness :
  email_ok (hooks_of (inr None)) (js "ann@example.com") = true /\
  6 <= length (js "secret") /\
  SignUp (js "ann@example.com") (js "secret")
  = SignUp (js "ann@example.com") (js "secret").
Proof.
  apply (proj2 (provider_called_only_with_valid_inputs
                  (hooks_of (inr None)) false (js "ann@example.com")
                  (js "secret"))
           (SignUp (js "ann@example.com") (js "secret"))).
  - simpl. auto.
  - reflexivity.
Defined.

(** X21: a submit either stops at validation, with one error shown and
    the loading flag untouched, or sets the flag and clears it again
    as its last act -- also when the provider call rejects, in which
    case the rejection leaves [handleSubmit] after the flag is
    cleared. *)
Theorem loading_is_always_cleared (h : Hooks) (isLogin : bool)
  (email password : jsstring) :
  let tr := snd (submit h isLogin email password) in
  (filter is_loading tr = [] /\ filter is_provider_call tr = [] /\
   exists msg, tr = [PreventDefault; ToastError msg])
  \/ (filter is_loading tr = [SetLoading true; SetLoading false] /\
      exists between, tr = PreventDefault :: SetLoading true :: between
                             ++ [SetLoading false]).
Proof.
  submit_cases h isLogin email password;
    first
      [ left; repeat split; eexists; reflexivity
      | right; split; [reflexivity|];
        first [ now exists [SignIn email password]
              | now exists [SignUp email password]
              | eexists [_; _]; reflexivity
              | eexists [_; _; _]; reflexivity ] ].
Qed.

(** X22: a submit shows at most one message, and the page moves on --
    to the root path -- only after the provider answered without an
    error, with the success message and no error message shown. *)
Theorem navigates_only_after_success (h : Hooks) (isLogin : bool)
  (email password : jsstring) :
  let tr := snd (submit h isLogin email password) in
  length (filter is_toast tr) <= 1 /\
  (forall path, In (Navigate path) tr ->
     path = js "/" /\
     (if isLogin then signIn h email password
      else signUp h email password) = inr None /\
     (forall msg, ~ In (ToastError msg) tr) /\
     In (ToastSuccess (if isLogin then MSG_SIGNED_IN else MSG_SIGNED_UP)) tr).
Proof.
  submit_cases h isLogin email password;
    (split; [simpl; lia|]);
    intros path Hin; simpl in Hin;
    repeat (destruct Hin as [Hin | Hin]; try discriminate Hin);
    try contradiction;
    injection Hin as <-;
    (split; [reflexivity|]); (split; [reflexivity|]);
    (split; [|simpl; auto]);
    intros msg Hm; simpl in Hm;
    repeat (destruct Hm as [Hm | Hm]; try discriminate Hm);
    contradiction.
Qed.

Lemma navigates_witness :
  signIn (hooks_of (inr None)) (js "ann@example.com") (js "secret")
  = inr None.
Proof.
  apply (proj2 (navigates_only_after_success
                  (hooks_of (inr None)) true (js "ann@example.com")
                  (js "secret")) (js "/")).
  simpl. auto 10.
Defined.

End AuthPageFacts.
